(** * A shallow embedding of the metronome component

    Source: [src/components/Metronome.tsx].  The React component keeps its
    scheduler in [useState] cells, [useRef] cells and the browser's timer
    table; the embedding threads one record through every handler, with
    the browser's timers and the trace of calls made visible.

    Numbers.  Tempo, beat indices and timer handles are integers.  In the
    component's state millisecond quantities and the volume are exact
    rationals ([Q], compared with [==]): that is enough for what is in the
    tap window, for ranges and for the timers.  Where the value of a
    rounded quotient matters, the tap estimate is also given on binary64
    numbers ([spec_float] at precision 53), operation by operation. *)

From Stdlib Require Import ZArith QArith Qround Qminmax Qabs Lia SpecFloat.
From stdpp Require Import base option list gmap strings.

Local Open Scope Z_scope.

(** ** JavaScript helpers *)

(** [Math.round]: nearest integer, ties towards plus infinity. *)
Definition Math_round (x : Q) : Z := Qfloor (x + (1 # 2)).

(** A rounded quotient is a finite integer or, when the divisor is zero
    and the dividend positive, [Infinity]. *)
Inductive JsInt : Type :=
  | Finite (z : Z)
  | Infinity.

(** [Math.round(n / d)] for a positive dividend [n]. *)
Definition round_div (n d : Q) : JsInt :=
  if Qeq_bool d 0 then Infinity else Finite (Math_round (n / d)).

(** [Math.min(Math.max(x, lo), hi)] with integer bounds. *)
Definition clamp (lo hi : Z) (x : JsInt) : Z :=
  match x with
  | Finite z => Z.min (Z.max z lo) hi
  | Infinity => hi
  end.

(** Truthiness of a [number | null] cell: [null] and [0] are falsy. *)
Definition truthy (r : option Z) : bool :=
  match r with
  | Some h => negb (h =? 0)
  | None => false
  end.

(** [a[i] = v] on an array: in range it overwrites, out of range the
    array grows and the holes read as [undefined] (falsy). *)
Definition js_set (i : nat) (v : bool) (a : list bool) : list bool :=
  if (i <? length a)%nat then <[i := v]> a
  else a ++ replicate (i - length a) false ++ [v].

(** [a[i]] used as a condition: [undefined] counts as [false]. *)
Definition js_get (a : list bool) (i : nat) : bool := default false (a !! i).

(** ** Constants of the component *)

Record SoundParams := { frequency : Q; gainMultiplier : Q }.

Module SOUNDS.

Definition accent : SoundParams :=
  {| frequency := 1200; gainMultiplier := 1 |}.

Definition otherBeats : SoundParams :=
  {| frequency := 800; gainMultiplier := 7 # 10 |}.

End SOUNDS.

Inductive Denominator := Den4 | Den8 | DenNone.

#[global] Instance Denominator_eq_dec : EqDecision Denominator.
Proof. solve_decision. Defined.

Record TimeSignature := { beats : nat; value : Denominator }.

(** An entry of the select box; [isNone] is the test [display === "None"]. *)
Record SignatureEntry :=
  { isNone : bool; entryBeats : nat; entryValue : Denominator }.

Definition TIME_SIGNATURES : list SignatureEntry :=
  [ {| isNone := true;  entryBeats := 1; entryValue := DenNone |};
    {| isNone := false; entryBeats := 2; entryValue := Den4 |};
    {| isNone := false; entryBeats := 3; entryValue := Den4 |};
    {| isNone := false; entryBeats := 4; entryValue := Den4 |};
    {| isNone := false; entryBeats := 5; entryValue := Den4 |};
    {| isNone := false; entryBeats := 6; entryValue := Den8 |};
    {| isNone := false; entryBeats := 7; entryValue := Den8 |};
    {| isNone := false; entryBeats := 9; entryValue := Den8 |} ].

(** ** The browser's timers and the trace *)

(** A repeating timer: its period and the beat count its callback closed
    over.  Both [setInterval] sites install the same callback body. *)
Record IntervalTimer := { period : Q; modulus : nat }.

(** A pending [setTimeout] callback. *)
Inductive TimeoutTask :=
  | RunStartMetronome (capturedBeats : nat)
  | ExpireWinLockout.

(** What the oscillator is given when the audio context exists. *)
Record Click := { isAccent : bool; clickFrequency : Q; beatVolume : Q }.

(** Calls observable from outside the scheduler, oldest first. *)
Inductive Effect :=
  | PlayClick (beatNumber : nat) (sound : option Click)
  | SetCurrentBeat (beat : nat).

(** ** The component's cells *)

Record Metronome := {
  (* useState *)
  isPlaying : bool;
  tempo : Z;
  volume : Q;
  timeSignature : TimeSignature;
  accentBeats : list bool;
  currentBeat : nat;
  hasWon : bool;
  (* useRef *)
  winLockoutRef : option Z;
  audioContextRef : bool;
  timerRef : option Z;
  nextBeatRef : nat;
  tempoRef : Z;
  volumeRef : Q;
  accentBeatsRef : list bool;
  isFirstClickRef : bool;
  tapTimesRef : list Q;
  tapTimeoutRef : option Z;
  (* host *)
  intervals : gmap Z IntervalTimer;
  timeouts : gmap Z TimeoutTask;
  nextHandle : Z;
  log : list Effect
}.

Definition set_isPlaying (v : bool) (s : Metronome) : Metronome :=
  {| isPlaying := v; tempo := tempo s; volume := volume s;
     timeSignature := timeSignature s; accentBeats := accentBeats s;
     currentBeat := currentBeat s; hasWon := hasWon s;
     winLockoutRef := winLockoutRef s; audioContextRef := audioContextRef s;
     timerRef := timerRef s; nextBeatRef := nextBeatRef s;
     tempoRef := tempoRef s; volumeRef := volumeRef s;
     accentBeatsRef := accentBeatsRef s;
     isFirstClickRef := isFirstClickRef s; tapTimesRef := tapTimesRef s;
     tapTimeoutRef := tapTimeoutRef s; intervals := intervals s;
     timeouts := timeouts s; nextHandle := nextHandle s; log := log s |}.

Definition set_tempo (v : Z) (s : Metronome) : Metronome :=
  {| isPlaying := isPlaying s; tempo := v; volume := volume s;
     timeSignature := timeSignature s; accentBeats := accentBeats s;
     currentBeat := currentBeat s; hasWon := hasWon s;
     winLockoutRef := winLockoutRef s; audioContextRef := audioContextRef s;
     timerRef := timerRef s; nextBeatRef := nextBeatRef s;
     tempoRef := tempoRef s; volumeRef := volumeRef s;
     accentBeatsRef := accentBeatsRef s;
     isFirstClickRef := isFirstClickRef s; tapTimesRef := tapTimesRef s;
     tapTimeoutRef := tapTimeoutRef s; intervals := intervals s;
     timeouts := timeouts s; nextHandle := nextHandle s; log := log s |}.

Definition set_volume (v : Q) (s : Metronome) : Metronome :=
  {| isPlaying := isPlaying s; tempo := tempo s; volume := v;
     timeSignature := timeSignature s; accentBeats := accentBeats s;
     currentBeat := currentBeat s; hasWon := hasWon s;
     winLockoutRef := winLockoutRef s; audioContextRef := audioContextRef s;
     timerRef := timerRef s; nextBeatRef := nextBeatRef s;
     tempoRef := tempoRef s; volumeRef := volumeRef s;
     accentBeatsRef := accentBeatsRef s;
     isFirstClickRef := isFirstClickRef s; tapTimesRef := tapTimesRef s;
     tapTimeoutRef := tapTimeoutRef s; intervals := intervals s;
     timeouts := timeouts s; nextHandle := nextHandle s; log := log s |}.

Definition set_timeSignature (v : TimeSignature) (s : Metronome) : Metronome :=
  {| isPlaying := isPlaying s; tempo := tempo s; volume := volume s;
     timeSignature := v; accentBeats := accentBeats s;
     currentBeat := currentBeat s; hasWon := hasWon s;
     winLockoutRef := winLockoutRef s; audioContextRef := audioContextRef s;
     timerRef := timerRef s; nextBeatRef := nextBeatRef s;
     tempoRef := tempoRef s; volumeRef := volumeRef s;
     accentBeatsRef := accentBeatsRef s;
     isFirstClickRef := isFirstClickRef s; tapTimesRef := tapTimesRef s;
     tapTimeoutRef := tapTimeoutRef s; intervals := intervals s;
     timeouts := timeouts s; nextHandle := nextHandle s; log := log s |}.

Definition set_accentBeats (v : list bool) (s : Metronome) : Metronome :=
  {| isPlaying := isPlaying s; tempo := tempo s; volume := volume s;
     timeSignature := timeSignature s; accentBeats := v;
     currentBeat := currentBeat s; hasWon := hasWon s;
     winLockoutRef := winLockoutRef s; audioContextRef := audioContextRef s;
     timerRef := timerRef s; nextBeatRef := nextBeatRef s;
     tempoRef := tempoRef s; volumeRef := volumeRef s;
     accentBeatsRef := accentBeatsRef s;
     isFirstClickRef := isFirstClickRef s; tapTimesRef := tapTimesRef s;
     tapTimeoutRef := tapTimeoutRef s; intervals := intervals s;
     timeouts := timeouts s; nextHandle := nextHandle s; log := log s |}.

Definition set_currentBeat (v : nat) (s : Metronome) : Metronome :=
  {| isPlaying := isPlaying s; tempo := tempo s; volume := volume s;
     timeSignature := timeSignature s; accentBeats := accentBeats s;
     currentBeat := v; hasWon := hasWon s; winLockoutRef := winLockoutRef s;
     audioContextRef := audioContextRef s; timerRef := timerRef s;
     nextBeatRef := nextBeatRef s; tempoRef := tempoRef s;
     volumeRef := volumeRef s; accentBeatsRef := accentBeatsRef s;
     isFirstClickRef := isFirstClickRef s; tapTimesRef := tapTimesRef s;
     tapTimeoutRef := tapTimeoutRef s; intervals := intervals s;
     timeouts := timeouts s; nextHandle := nextHandle s; log := log s |}.

Definition set_hasWon (v : bool) (s : Metronome) : Metronome :=
  {| isPlaying := isPlaying s; tempo := tempo s; volume := volume s;
     timeSignature := timeSignature s; accentBeats := accentBeats s;
     currentBeat := currentBeat s; hasWon := v;
     winLockoutRef := winLockoutRef s; audioContextRef := audioContextRef s;
     timerRef := timerRef s; nextBeatRef := nextBeatRef s;
     tempoRef := tempoRef s; volumeRef := volumeRef s;
     accentBeatsRef := accentBeatsRef s;
     isFirstClickRef := isFirstClickRef s; tapTimesRef := tapTimesRef s;
     tapTimeoutRef := tapTimeoutRef s; intervals := intervals s;
     timeouts := timeouts s; nextHandle := nextHandle s; log := log s |}.

Definition set_winLockoutRef (v : option Z) (s : Metronome) : Metronome :=
  {| isPlaying := isPlaying s; tempo := tempo s; volume := volume s;
     timeSignature := timeSignature s; accentBeats := accentBeats s;
     currentBeat := currentBeat s; hasWon := hasWon s; winLockoutRef := v;
     audioContextRef := audioContextRef s; timerRef := timerRef s;
     nextBeatRef := nextBeatRef s; tempoRef := tempoRef s;
     volumeRef := volumeRef s; accentBeatsRef := accentBeatsRef s;
     isFirstClickRef := isFirstClickRef s; tapTimesRef := tapTimesRef s;
     tapTimeoutRef := tapTimeoutRef s; intervals := intervals s;
     timeouts := timeouts s; nextHandle := nextHandle s; log := log s |}.

Definition set_audioContextRef (v : bool) (s : Metronome) : Metronome :=
  {| isPlaying := isPlaying s; tempo := tempo s; volume := volume s;
     timeSignature := timeSignature s; accentBeats := accentBeats s;
     currentBeat := currentBeat s; hasWon := hasWon s;
     winLockoutRef := winLockoutRef s; audioContextRef := v;
     timerRef := timerRef s; nextBeatRef := nextBeatRef s;
     tempoRef := tempoRef s; volumeRef := volumeRef s;
     accentBeatsRef := accentBeatsRef s;
     isFirstClickRef := isFirstClickRef s; tapTimesRef := tapTimesRef s;
     tapTimeoutRef := tapTimeoutRef s; intervals := intervals s;
     timeouts := timeouts s; nextHandle := nextHandle s; log := log s |}.

Definition set_timerRef (v : option Z) (s : Metronome) : Metronome :=
  {| isPlaying := isPlaying s; tempo := tempo s; volume := volume s;
     timeSignature := timeSignature s; accentBeats := accentBeats s;
     currentBeat := currentBeat s; hasWon := hasWon s;
     winLockoutRef := winLockoutRef s; audioContextRef := audioContextRef s;
     timerRef := v; nextBeatRef := nextBeatRef s; tempoRef := tempoRef s;
     volumeRef := volumeRef s; accentBeatsRef := accentBeatsRef s;
     isFirstClickRef := isFirstClickRef s; tapTimesRef := tapTimesRef s;
     tapTimeoutRef := tapTimeoutRef s; intervals := intervals s;
     timeouts := timeouts s; nextHandle := nextHandle s; log := log s |}.

Definition set_nextBeatRef (v : nat) (s : Metronome) : Metronome :=
  {| isPlaying := isPlaying s; tempo := tempo s; volume := volume s;
     timeSignature := timeSignature s; accentBeats := accentBeats s;
     currentBeat := currentBeat s; hasWon := hasWon s;
     winLockoutRef := winLockoutRef s; audioContextRef := audioContextRef s;
     timerRef := timerRef s; nextBeatRef := v; tempoRef := tempoRef s;
     volumeRef := volumeRef s; accentBeatsRef := accentBeatsRef s;
     isFirstClickRef := isFirstClickRef s; tapTimesRef := tapTimesRef s;
     tapTimeoutRef := tapTimeoutRef s; intervals := intervals s;
     timeouts := timeouts s; nextHandle := nextHandle s; log := log s |}.

Definition set_tempoRef (v : Z) (s : Metronome) : Metronome :=
  {| isPlaying := isPlaying s; tempo := tempo s; volume := volume s;
     timeSignature := timeSignature s; accentBeats := accentBeats s;
     currentBeat := currentBeat s; hasWon := hasWon s;
     winLockoutRef := winLockoutRef s; audioContextRef := audioContextRef s;
     timerRef := timerRef s; nextBeatRef := nextBeatRef s; tempoRef := v;
     volumeRef := volumeRef s; accentBeatsRef := accentBeatsRef s;
     isFirstClickRef := isFirstClickRef s; tapTimesRef := tapTimesRef s;
     tapTimeoutRef := tapTimeoutRef s; intervals := intervals s;
     timeouts := timeouts s; nextHandle := nextHandle s; log := log s |}.

Definition set_volumeRef (v : Q) (s : Metronome) : Metronome :=
  {| isPlaying := isPlaying s; tempo := tempo s; volume := volume s;
     timeSignature := timeSignature s; accentBeats := accentBeats s;
     currentBeat := currentBeat s; hasWon := hasWon s;
     winLockoutRef := winLockoutRef s; audioContextRef := audioContextRef s;
     timerRef := timerRef s; nextBeatRef := nextBeatRef s;
     tempoRef := tempoRef s; volumeRef := v;
     accentBeatsRef := accentBeatsRef s;
     isFirstClickRef := isFirstClickRef s; tapTimesRef := tapTimesRef s;
     tapTimeoutRef := tapTimeoutRef s; intervals := intervals s;
     timeouts := timeouts s; nextHandle := nextHandle s; log := log s |}.

Definition set_accentBeatsRef (v : list bool) (s : Metronome) : Metronome :=
  {| isPlaying := isPlaying s; tempo := tempo s; volume := volume s;
     timeSignature := timeSignature s; accentBeats := accentBeats s;
     currentBeat := currentBeat s; hasWon := hasWon s;
     winLockoutRef := winLockoutRef s; audioContextRef := audioContextRef s;
     timerRef := timerRef s; nextBeatRef := nextBeatRef s;
     tempoRef := tempoRef s; volumeRef := volumeRef s; accentBeatsRef := v;
     isFirstClickRef := isFirstClickRef s; tapTimesRef := tapTimesRef s;
     tapTimeoutRef := tapTimeoutRef s; intervals := intervals s;
     timeouts := timeouts s; nextHandle := nextHandle s; log := log s |}.

Definition set_isFirstClickRef (v : bool) (s : Metronome) : Metronome :=
  {| isPlaying := isPlaying s; tempo := tempo s; volume := volume s;
     timeSignature := timeSignature s; accentBeats := accentBeats s;
     currentBeat := currentBeat s; hasWon := hasWon s;
     winLockoutRef := winLockoutRef s; audioContextRef := audioContextRef s;
     timerRef := timerRef s; nextBeatRef := nextBeatRef s;
     tempoRef := tempoRef s; volumeRef := volumeRef s;
     accentBeatsRef := accentBeatsRef s; isFirstClickRef := v;
     tapTimesRef := tapTimesRef s; tapTimeoutRef := tapTimeoutRef s;
     intervals := intervals s; timeouts := timeouts s;
     nextHandle := nextHandle s; log := log s |}.

Definition set_tapTimesRef (v : list Q) (s : Metronome) : Metronome :=
  {| isPlaying := isPlaying s; tempo := tempo s; volume := volume s;
     timeSignature := timeSignature s; accentBeats := accentBeats s;
     currentBeat := currentBeat s; hasWon := hasWon s;
     winLockoutRef := winLockoutRef s; audioContextRef := audioContextRef s;
     timerRef := timerRef s; nextBeatRef := nextBeatRef s;
     tempoRef := tempoRef s; volumeRef := volumeRef s;
     accentBeatsRef := accentBeatsRef s;
     isFirstClickRef := isFirstClickRef s; tapTimesRef := v;
     tapTimeoutRef := tapTimeoutRef s; intervals := intervals s;
     timeouts := timeouts s; nextHandle := nextHandle s; log := log s |}.

Definition set_tapTimeoutRef (v : option Z) (s : Metronome) : Metronome :=
  {| isPlaying := isPlaying s; tempo := tempo s; volume := volume s;
     timeSignature := timeSignature s; accentBeats := accentBeats s;
     currentBeat := currentBeat s; hasWon := hasWon s;
     winLockoutRef := winLockoutRef s; audioContextRef := audioContextRef s;
     timerRef := timerRef s; nextBeatRef := nextBeatRef s;
     tempoRef := tempoRef s; volumeRef := volumeRef s;
     accentBeatsRef := accentBeatsRef s;
     isFirstClickRef := isFirstClickRef s; tapTimesRef := tapTimesRef s;
     tapTimeoutRef := v; intervals := intervals s; timeouts := timeouts s;
     nextHandle := nextHandle s; log := log s |}.

Definition set_intervals (v : gmap Z IntervalTimer) (s : Metronome) : Metronome :=
  {| isPlaying := isPlaying s; tempo := tempo s; volume := volume s;
     timeSignature := timeSignature s; accentBeats := accentBeats s;
     currentBeat := currentBeat s; hasWon := hasWon s;
     winLockoutRef := winLockoutRef s; audioContextRef := audioContextRef s;
     timerRef := timerRef s; nextBeatRef := nextBeatRef s;
     tempoRef := tempoRef s; volumeRef := volumeRef s;
     accentBeatsRef := accentBeatsRef s;
     isFirstClickRef := isFirstClickRef s; tapTimesRef := tapTimesRef s;
     tapTimeoutRef := tapTimeoutRef s; intervals := v;
     timeouts := timeouts s; nextHandle := nextHandle s; log := log s |}.

Definition set_timeouts (v : gmap Z TimeoutTask) (s : Metronome) : Metronome :=
  {| isPlaying := isPlaying s; tempo := tempo s; volume := volume s;
     timeSignature := timeSignature s; accentBeats := accentBeats s;
     currentBeat := currentBeat s; hasWon := hasWon s;
     winLockoutRef := winLockoutRef s; audioContextRef := audioContextRef s;
     timerRef := timerRef s; nextBeatRef := nextBeatRef s;
     tempoRef := tempoRef s; volumeRef := volumeRef s;
     accentBeatsRef := accentBeatsRef s;
     isFirstClickRef := isFirstClickRef s; tapTimesRef := tapTimesRef s;
     tapTimeoutRef := tapTimeoutRef s; intervals := intervals s;
     timeouts := v; nextHandle := nextHandle s; log := log s |}.

Definition set_nextHandle (v : Z) (s : Metronome) : Metronome :=
  {| isPlaying := isPlaying s; tempo := tempo s; volume := volume s;
     timeSignature := timeSignature s; accentBeats := accentBeats s;
     currentBeat := currentBeat s; hasWon := hasWon s;
     winLockoutRef := winLockoutRef s; audioContextRef := audioContextRef s;
     timerRef := timerRef s; nextBeatRef := nextBeatRef s;
     tempoRef := tempoRef s; volumeRef := volumeRef s;
     accentBeatsRef := accentBeatsRef s;
     isFirstClickRef := isFirstClickRef s; tapTimesRef := tapTimesRef s;
     tapTimeoutRef := tapTimeoutRef s; intervals := intervals s;
     timeouts := timeouts s; nextHandle := v; log := log s |}.

Definition set_log (v : list Effect) (s : Metronome) : Metronome :=
  {| isPlaying := isPlaying s; tempo := tempo s; volume := volume s;
     timeSignature := timeSignature s; accentBeats := accentBeats s;
     currentBeat := currentBeat s; hasWon := hasWon s;
     winLockoutRef := winLockoutRef s; audioContextRef := audioContextRef s;
     timerRef := timerRef s; nextBeatRef := nextBeatRef s;
     tempoRef := tempoRef s; volumeRef := volumeRef s;
     accentBeatsRef := accentBeatsRef s;
     isFirstClickRef := isFirstClickRef s; tapTimesRef := tapTimesRef s;
     tapTimeoutRef := tapTimeoutRef s; intervals := intervals s;
     timeouts := timeouts s; nextHandle := nextHandle s; log := v |}.

(** The component as first mounted. *)
Definition initial : Metronome :=
  {| isPlaying := false; tempo := 120; volume := 1 # 2;
     timeSignature := {| beats := 4; value := Den4 |};
     accentBeats := [true; false; false; false];
     currentBeat := 0; hasWon := false;
     winLockoutRef := None; audioContextRef := false; timerRef := None;
     nextBeatRef := 0; tempoRef := 120; volumeRef := 1 # 2;
     accentBeatsRef := [true; false; false; false];
     isFirstClickRef := true; tapTimesRef := []; tapTimeoutRef := None;
     intervals := ∅; timeouts := ∅; nextHandle := 1; log := [] |}.

(** ** Host operations *)

(** [clearInterval] and [clearTimeout] share one table of handles. *)
Definition clearTimer (h : Z) (s : Metronome) : Metronome :=
  set_timeouts (delete h (timeouts s)) (set_intervals (delete h (intervals s)) s).

(** [if (ref.current) clearInterval(ref.current)]. *)
Definition clearIfSet (r : option Z) (s : Metronome) : Metronome :=
  match r with
  | Some h => if truthy r then clearTimer h s else s
  | None => s
  end.

(** [window.setInterval(cb, ms)]: the handle handed out and the new state. *)
Definition setInterval (t : IntervalTimer) (s : Metronome) : Z * Metronome :=
  let h := nextHandle s in
  (h, set_nextHandle (h + 1) (set_intervals (<[h := t]> (intervals s)) s)).

(** [window.setTimeout(cb, ms)]. *)
Definition setTimeout (t : TimeoutTask) (s : Metronome) : Z * Metronome :=
  let h := nextHandle s in
  (h, set_nextHandle (h + 1) (set_timeouts (<[h := t]> (timeouts s)) s)).

(** ** Tone generator and beat *)

Definition soundFor (accented : bool) : SoundParams :=
  if accented then SOUNDS.accent else SOUNDS.otherBeats.

(** [playClick(beatNumber)]: silent when there is no audio context.  The
    product of line 410 is taken exactly. *)
Definition playClick (beatNumber : nat) (s : Metronome) : Metronome :=
  let sound :=
    if audioContextRef s then
      let accented := js_get (accentBeatsRef s) beatNumber in
      let soundParams := soundFor accented in
      Some {| isAccent := accented;
              clickFrequency := frequency soundParams;
              beatVolume := (volumeRef s * gainMultiplier soundParams)%Q |}
    else None in
  set_log (log s ++ [PlayClick beatNumber sound]) s.

Definition setCurrentBeat (n : nat) (s : Metronome) : Metronome :=
  set_log (log s ++ [SetCurrentBeat n]) (set_currentBeat n s).

(** The three statements shared by the immediate beat and by both
    interval callbacks; [count] is the beat count the closure holds. *)
Definition fireBeat (count : nat) (s : Metronome) : Metronome :=
  let s1 := playClick (nextBeatRef s) s in
  let s2 := setCurrentBeat (nextBeatRef s1) s1 in
  set_nextBeatRef ((nextBeatRef s2 + 1) mod count)%nat s2.

(** ** Scheduler *)

(** The interval of [startMetronome], floored at 10ms. *)
Definition startIntervalMs (bpm : Z) : Q :=
  Qmax ((60 / inject_Z bpm) * 1000) 10.

(** The interval computed inline by the time-signature handler. *)
Definition signatureIntervalMs (bpm : Z) : Q :=
  (60 / inject_Z bpm) * 1000.

(** [startMetronome], with the beat count of the render that made it. *)
Definition startMetronome (count : nat) (s : Metronome) : Metronome :=
  let s1 := clearIfSet (timerRef s) s in
  let intervalMs := startIntervalMs (tempoRef s1) in
  let s2 := fireBeat count s1 in
  let '(h, s3) := setInterval {| period := intervalMs; modulus := count |} s2 in
  set_timerRef (Some h) s3.

(** ** Transport *)

Definition ensureAudioContext (s : Metronome) : Metronome :=
  set_audioContextRef true s.

(** [startStop]: the button.  The first start of a session is delayed
    by a timeout whose callback holds this render's [startMetronome]. *)
Definition startStop (s : Metronome) : Metronome :=
  let s0 := ensureAudioContext s in
  if isPlaying s then
    let s1 := clearIfSet (timerRef s0) s0 in
    let s2 := set_isPlaying false s1 in
    let s3 := setCurrentBeat 0 s2 in
    set_nextBeatRef 0%nat s3
  else
    let s1 := set_isPlaying true s0 in
    let s2 := setCurrentBeat 0 s1 in
    let s3 := set_nextBeatRef 0%nat s2 in
    if isFirstClickRef s3 then
      let '(_, s4) :=
        setTimeout (RunStartMetronome (beats (timeSignature s))) s3 in
      set_isFirstClickRef false s4
    else startMetronome (beats (timeSignature s)) s3.

(** The tempo slider: [onValueChange] and [onValueCommit]. *)
Definition onTempoChange (v : Z) (s : Metronome) : Metronome := set_tempo v s.

Definition onTempoCommit (s : Metronome) : Metronome :=
  if isPlaying s then startMetronome (beats (timeSignature s)) s else s.

(** ** Time signature and accents *)

Definition newSignature (e : SignatureEntry) : TimeSignature :=
  if isNone e then {| beats := 1; value := DenNone |}
  else {| beats := entryBeats e; value := entryValue e |}.

(** The accents the select handler installs. *)
Definition handlerAccents (sig : TimeSignature) : list bool :=
  if decide (value sig = DenNone) then [false]
  else js_set 0 true (replicate (beats sig) false).

(** The select box's [onValueChange]. *)
Definition onSignatureChange (e : SignatureEntry) (s : Metronome) : Metronome :=
  let newTimeSignature := newSignature e in
  let s1 := set_timeSignature newTimeSignature s in
  let s2 := set_accentBeats (handlerAccents newTimeSignature) s1 in
  if isPlaying s then
    let s3 := clearIfSet (timerRef s2) s2 in
    let intervalMs := signatureIntervalMs (tempoRef s3) in
    let s4 := set_nextBeatRef 0%nat s3 in
    let s5 := setCurrentBeat 0 s4 in
    let '(h, s6) :=
      setInterval {| period := intervalMs;
                     modulus := beats newTimeSignature |} s5 in
    set_timerRef (Some h) s6
  else s2.

(** The updater of the effect keyed on [timeSignature.beats]. *)
Definition accentEffect (count : nat) (prev : list bool) : list bool :=
  let newAccents := js_set 0 true (replicate count false) in
  foldl (λ acc i, js_set i (js_get prev i) acc) newAccents
        (seq 0 (min (length prev) count)).

(** A beat dot's [onClick]. *)
Definition toggleAccent (i : nat) (s : Metronome) : Metronome :=
  set_accentBeats (js_set i (negb (js_get (accentBeats s) i)) (accentBeats s)) s.

(** ** Tap tempo *)

Definition Qgtb (a b : Q) : bool := negb (Qle_bool a b).

(** The window after the clear, the push and the shift. *)
Definition tapWindow (now : Q) (tapTimes : list Q) : list Q :=
  let cleared :=
    if (0 <? length tapTimes)%nat
       && Qgtb (now - default 0%Q (last tapTimes)) 1000
    then [] else tapTimes in
  let pushed := cleared ++ [now] in
  if (3 <? length pushed)%nat then tail pushed else pushed.

(** [for (i = 1; i < tapTimes.length; i++) push(tapTimes[i] - tapTimes[i-1])]. *)
Definition tapIntervals (tapTimes : list Q) : list Q :=
  (λ i, nth i tapTimes 0 - nth (i - 1) tapTimes 0)%Q
    <$> seq 1 (length tapTimes - 1).

(** [intervals.reduce((a, b) => a + b, 0) / intervals.length]. *)
Definition averageInterval (intervals : list Q) : Q :=
  (foldl Qplus 0 intervals / inject_Z (Z.of_nat (length intervals)))%Q.

(** The tempo handed to [setTempo], when the window is long enough.
    The timestamps are exact rationals here; [tapTempo64] below is the
    same computation on doubles. *)
Definition tapTempo (tapTimes : list Q) : option Z :=
  if (2 <=? length tapTimes)%nat then
    let newTempo := round_div 60000 (averageInterval (tapIntervals tapTimes)) in
    Some (clamp 40 800 newTempo)
  else None.

(** [handleTapTempo] at time [now]: the argument of its [setTempo] call,
    if it makes one, and the new state. *)
Definition handleTapTempo (now : Q) (s : Metronome) : option Z * Metronome :=
  if truthy (winLockoutRef s) then (None, s) else
  let s1 := set_tapTimesRef (tapWindow now (tapTimesRef s)) s in
  match tapTempo (tapTimesRef s1) with
  | None => (None, s1)
  | Some clampedTempo =>
    let s2 := set_tempo clampedTempo s1 in
    let s3 :=
      if (550 <=? clampedTempo) && negb (hasWon s) then
        let s3a := set_hasWon true s2 in
        let s3b := clearIfSet (winLockoutRef s3a) s3a in
        let '(h, s3c) := setTimeout ExpireWinLockout s3b in
        set_winLockoutRef (Some h) s3c
      else s2 in
    let s6 :=
      if isPlaying s then
        let s4 := clearIfSet (tapTimeoutRef s3) s3 in
        let '(h, s5) :=
          setTimeout (RunStartMetronome (beats (timeSignature s))) s4 in
        set_tapTimeoutRef (Some h) s5
      else s3 in
    (Some clampedTempo, s6)
  end.

(** ** Timers firing *)

Definition runTimeout (h : Z) (s : Metronome) : Metronome :=
  match timeouts s !! h with
  | None => s
  | Some task =>
    let s1 := set_timeouts (delete h (timeouts s)) s in
    match task with
    | RunStartMetronome count => startMetronome count s1
    | ExpireWinLockout => set_hasWon false (set_winLockoutRef None s1)
    end
  end.

Definition runInterval (h : Z) (s : Metronome) : Metronome :=
  match intervals s !! h with
  | None => s
  | Some t => fireBeat (modulus t) s
  end.

(** ** Render and effects *)

(** The three one-line effects that copy state into refs. *)
Definition mirrorRefs (s : Metronome) : Metronome :=
  set_accentBeatsRef (accentBeats s)
    (set_volumeRef (volume s) (set_tempoRef (tempo s) s)).

(** The effects that follow a render: the accent updater when the beat
    count changed, the ref mirrors, and the [isPlaying] effect. *)
Definition commit (before s : Metronome) : Metronome :=
  let s1 :=
    if decide (beats (timeSignature before) = beats (timeSignature s)) then s
    else set_accentBeats
           (accentEffect (beats (timeSignature s)) (accentBeats s)) s in
  let s2 := mirrorRefs s1 in
  if eqb (isPlaying before) (isPlaying s2) then s2
  else if isPlaying s2 then s2 else clearIfSet (timerRef s2) s2.

(** ** Events *)

(** What can happen to a mounted component.  [WinEffect] stands for the
    cosmetic win effect, which owns [hasWon] and [winLockoutRef] and may
    leave them in any state. *)
Inductive Event :=
  | ClickStartStop
  | TempoChange (v : Z)
  | TempoCommit
  | SelectSignature (e : SignatureEntry)
  | Tap (now : Q)
  | ToggleAccent (i : nat)
  | VolumeChange (v : Q)
  | TimeoutFires (h : Z)
  | IntervalFires (h : Z)
  | WinEffect (lockout : option Z) (won : bool).

Definition handle (ev : Event) (s : Metronome) : Metronome :=
  match ev with
  | ClickStartStop => startStop s
  | TempoChange v => onTempoChange v s
  | TempoCommit => onTempoCommit s
  | SelectSignature e => onSignatureChange e s
  | Tap now => snd (handleTapTempo now s)
  | ToggleAccent i => toggleAccent i s
  | VolumeChange v => set_volume v s
  | TimeoutFires h => runTimeout h s
  | IntervalFires h => runInterval h s
  | WinEffect lockout won => set_hasWon won (set_winLockoutRef lockout s)
  end.

(** One event: its handler, then the render's effects. *)
Definition step (s : Metronome) (ev : Event) : Metronome :=
  commit s (handle ev s).

Definition run (evs : list Event) (s : Metronome) : Metronome :=
  foldl step s evs.

(** The operations of the scheduler, as the user reaches them. *)
Definition reconfigureTempo (newTempo : Z) (s : Metronome) : Metronome :=
  run [TempoChange newTempo; TempoCommit] s.

Definition reconfigureTimeSignature (e : SignatureEntry) (s : Metronome)
  : Metronome :=
  step s (SelectSignature e).

(** ** Statements, expected timers and sample states *)

(** Every live repeating timer is the one [timerRef] names, and handles
    are positive (so the truthiness test before each cancel succeeds). *)
Record owned (s : Metronome) : Prop := {
  live_is_ref :
    ∀ h t, intervals s !! h = Some t → timerRef s = Some h ∧ 0 < h;
  handles_positive : 0 < nextHandle s
}.

Definition startTimer (count : nat) (s : Metronome) : IntervalTimer :=
  {| period := startIntervalMs (tempoRef s); modulus := count |}.

(** The sound [playClick] hands to the oscillator at beat [c]. *)
Definition soundAt (c : nat) (s : Metronome) : option Click :=
  if audioContextRef s then
    let accented := js_get (accentBeatsRef s) c in
    Some {| isAccent := accented;
            clickFrequency := if accented then 1200 else 800;
            beatVolume := (volumeRef s * (if accented then 1 else 7 # 10))%Q |}
  else None.

(** The order of a beat's effects: sound the cursor's beat, show the same
    cursor, then advance it modulo [count]. *)
Definition sounded_shown_advanced (count : nat) (s s' : Metronome) : Prop :=
  log s' = log s ++ [PlayClick (nextBeatRef s) (soundAt (nextBeatRef s) s);
                     SetCurrentBeat (nextBeatRef s)]
  ∧ currentBeat s' = nextBeatRef s
  ∧ nextBeatRef s' = ((nextBeatRef s + 1) mod count)%nat.

Record mirrored (s : Metronome) : Prop := {
  tempo_mirrored : tempoRef s = tempo s;
  volume_mirrored : volumeRef s = volume s;
  accents_mirrored : accentBeatsRef s = accentBeats s
}.

Definition signatureTimer (e : SignatureEntry) (s : Metronome) : IntervalTimer :=
  {| period := signatureIntervalMs (tempoRef s);
     modulus := beats (newSignature e) |}.

Definition playing : Metronome := run [ClickStartStop; TimeoutFires 1] initial.

(** The claim C4 as the specification words it: the cursor after the
    change is the cursor before it. *)
Definition tempo_change_keeps_cursor (v : Z) (s : Metronome) : Prop :=
  nextBeatRef (reconfigureTempo v s) = nextBeatRef s.

Definition threeFour : SignatureEntry :=
  {| isNone := false; entryBeats := 3; entryValue := Den4 |}.

(** The accents the handler installs, spelt out. *)
Definition resetAccents (e : SignatureEntry) : list bool :=
  if isNone e then [false] else true :: replicate (entryBeats e - 1) false.

(** The claim C6 as the specification words it, for an old pattern, the
    new beat count and the resulting pattern. *)
Definition accents_carried_over (old : list bool) (count : nat)
    (new : list bool) : Prop :=
  length new = count
  ∧ (∀ i, (0 < i < min (length old) count)%nat → new !! i = old !! i)
  ∧ (∀ i, (length old ≤ i < count)%nat → new !! i = Some false)
  ∧ new !! 0%nat = Some true.

(** The estimate of the third of three taps. *)
Definition third_tap_estimate (t1 t2 t3 : Q) (s : Metronome) : option Z :=
  fst (handleTapTempo t3 (snd (handleTapTempo t2 (snd (handleTapTempo t1 s))))).



(** Steps 1 and 2: clear after a gap, append, keep the latest three. *)
Definition spec_window (timestamp : Q) (window : list Q) : list Q :=
  let kept :=
    match last window with
    | Some lastTap =>
        if Qlt_le_dec 1000 (timestamp - lastTap) then [] else window
    | None => window
    end in
  let appended := kept ++ [timestamp] in
  drop (length appended - 3) appended.

(** Step 4: consecutive inter-tap intervals and their average. *)
Definition spec_intervals (window : list Q) : list Q :=
  zip_with Qminus (tail window) window.

Definition spec_average (intervals : list Q) : Q :=
  (foldr Qplus 0 intervals / inject_Z (Z.of_nat (length intervals)))%Q.

(** ** Further definitions: invariants, display helpers, cleanup *)


(** Events the rendered controls can produce: the select box offers the
    entries of [TIME_SIGNATURES], and there is one accent dot per beat. *)
Definition event_ok (s : Metronome) (ev : Event) : Prop :=
  match ev with
  | SelectSignature e => e ∈ TIME_SIGNATURES
  | ToggleAccent i => (i < beats (timeSignature s))%nat
  | _ => True
  end.

Fixpoint run_ok (evs : list Event) (s : Metronome) : Prop :=
  match evs with
  | [] => True
  | ev :: evs => event_ok s ev ∧ run_ok evs (step s ev)
  end.

(** Handles are handed out once: a pending timeout is never the timer
    [timerRef] names, and [tapTimeoutRef] never names a live interval. *)
Record separated (s : Metronome) : Prop := {
  timeouts_apart :
    ∀ h t, timeouts s !! h = Some t → h < nextHandle s ∧ timerRef s ≠ Some h;
  timerRef_issued : ∀ h, timerRef s = Some h → h < nextHandle s;
  tapTimeout_apart :
    ∀ h, tapTimeoutRef s = Some h → h < nextHandle s ∧ intervals s !! h = None
}.

(** The state [startStop] hands to [startMetronome] or to the timeout. *)
Definition aboutToStart (s : Metronome) : Metronome :=
  set_nextBeatRef 0%nat
    (setCurrentBeat 0 (set_isPlaying true (ensureAudioContext s))).

(** The trace of [k] beats from cursor [c] with beat count [n]: beat
    [(c + i) mod n] is sounded and then shown, for [i] from 0. *)
Definition beatTrace (n c k : nat) (s : Metronome) : list Effect :=
  concat ((λ i, [PlayClick ((c + i) mod n) (soundAt ((c + i) mod n) s);
                 SetCurrentBeat ((c + i) mod n)]) <$> seq 0 k).

(** Something may still fire a beat: the component is playing, a
    repeating timer is live, or a start callback is pending. *)
Definition scheduled (s : Metronome) : Prop :=
  isPlaying s = true
  ∨ (∃ h, is_Some (intervals s !! h))
  ∨ (∃ h count, timeouts s !! h = Some (RunStartMetronome count)).

(** Whenever a beat may fire, the audio context exists. *)
Definition audible (s : Metronome) : Prop :=
  scheduled s → audioContextRef s = true.

Record TempoMark := { name : string; tempo_of : Z }.

Definition TEMPO_MARKS : list TempoMark :=
  [ {| name := "Largo"; tempo_of := 40 |};
    {| name := "Adagio"; tempo_of := 66 |};
    {| name := "Andante"; tempo_of := 76 |};
    {| name := "Moderato"; tempo_of := 108 |};
    {| name := "Allegro"; tempo_of := 120 |};
    {| name := "Vivace"; tempo_of := 168 |};
    {| name := "Presto"; tempo_of := 280 |} ].

Record EasterEgg := { egg_name : string; min_of : Z; max_of : Z }.

Definition EASTER_EGG_TEMPOS : list EasterEgg :=
  [ {| egg_name := "Super Fast"; min_of := 281; max_of := 350 |};
    {| egg_name := "Light Speed"; min_of := 351; max_of := 415 |};
    {| egg_name := "Ridiculous"; min_of := 416; max_of := 480 |};
    {| egg_name := "Ludicrous"; min_of := 481; max_of := 549 |};
    {| egg_name := "You Win!"; min_of := 550; max_of := 10000 |} ].

(** [a || b] on strings: the empty string is falsy. *)
Definition js_or (a : option string) (b : string) : string :=
  match a with
  | Some EmptyString | None => b
  | Some s => s
  end.

(** [getTempoName]: an easter-egg range first, else the first marking at
    or above the tempo, else the last marking. *)
Definition getTempoName (tempo : Z) : string :=
  match List.find (λ mark, (min_of mark <=? tempo) && (tempo <=? max_of mark))
                  EASTER_EGG_TEMPOS with
  | Some easterEggTempo => egg_name easterEggTempo
  | None =>
      js_or (name <$> List.find (λ mark, tempo <=? tempo_of mark) TEMPO_MARKS)
            (default "" (name <$> last TEMPO_MARKS))
  end.

(** The colours [getTempoColor] can return: ["inherit"], ["#FF3333"], or
    an [rgb(r, g, b)] string, kept as its three numbers. *)
Inductive Color :=
  | inherit
  | FF3333
  | rgb (red green blue : Z).

Definition getTempoColor (tempo : Z) : Color :=
  if tempo <=? 280 then inherit
  else if 550 <=? tempo then FF3333
  else
    let hotness := ((inject_Z tempo - 280) / (550 - 280))%Q in
    let red := Math_round (255 * hotness) in
    let greenBlue := 0 in
    rgb red greenBlue greenBlue.

(** [getTempoSize], in rem. *)
Definition getTempoSize (tempo : Z) : Q :=
  if tempo <=? 280 then 9 # 4
  else if 550 <=? tempo then 3
  else
    let scale := ((inject_Z tempo - 280) / (550 - 280))%Q in
    ((9 # 4) + scale * 1)%Q.

Inductive NoteType := quarter | dottedQuarter | eighth.

#[global] Instance NoteType_eq_dec : EqDecision NoteType.
Proof. solve_decision. Defined.

(** [getDisplayTempo] for an integer tempo.  For the tempos the
    component holds the quotients below are far from any rounding tie, so
    rounding the exact quotient is rounding the double. *)
Definition getDisplayTempo (baseTempo : Z) (noteType : NoteType)
    (timeSignature : TimeSignature) : Z :=
  if decide (value timeSignature = Den8) then
    match noteType with
    | quarter => Math_round (inject_Z baseTempo / 2)
    | dottedQuarter => Math_round (inject_Z baseTempo / 3)
    | eighth => baseTempo
    end
  else
    match noteType with
    | dottedQuarter => Math_round (inject_Z baseTempo * 2 / 3)
    | eighth => baseTempo * 2
    | quarter => baseTempo
    end.

Definition getAvailableNoteTypes (timeSignature : TimeSignature)
  : list NoteType :=
  match value timeSignature with
  | DenNone => [quarter]
  | Den4 => [quarter]
  | Den8 =>
      let isDivisibleBy3 := (beats timeSignature mod 3 =? 0)%nat in
      let isDivisibleBy2 := (beats timeSignature mod 2 =? 0)%nat in
      if isDivisibleBy3 then
        if isDivisibleBy2 then [quarter; dottedQuarter; eighth]
        else [dottedQuarter; eighth]
      else
        if isDivisibleBy2 then [quarter; eighth] else [eighth]
  end.

(** The note type the select handler installs with a new signature. *)
Definition defaultNoteType (newTimeSignature : TimeSignature) : NoteType :=
  if decide (value newTimeSignature = Den8) then eighth else quarter.

(** [availableTypes.indexOf(x)]: -1 when absent. *)
Definition indexOf (x : NoteType) (l : list NoteType) : Z :=
  match list_find (λ y, y = x) l with
  | Some (i, _) => Z.of_nat i
  | None => -1
  end.

(** The note button's [onClick]: the type it selects, [None] standing
    for [undefined]. *)
Definition cycleNoteType (timeSignature : TimeSignature)
    (selectedNoteType : NoteType) : option NoteType :=
  let availableTypes := getAvailableNoteTypes timeSignature in
  let currentIndex := indexOf selectedNoteType availableTypes in
  let nextIndex := Z.rem (currentIndex + 1) (Z.of_nat (length availableTypes)) in
  if nextIndex <? 0 then None else availableTypes !! Z.to_nat nextIndex.

(** One click of the note button, keeping the type if the click yields
    nothing. *)
Definition clickNote (sig : TimeSignature) (selected : NoteType) : NoteType :=
  default selected (cycleNoteType sig selected).

Definition sixEight : TimeSignature := {| beats := 6; value := Den8 |}.

(** The cleanup of the mount effect, as far as timers go: the audio
    context is closed but its ref keeps it, the repeating timer and the
    tap timeout are cleared through their refs. *)
Definition unmount (s : Metronome) : Metronome :=
  let s1 := clearIfSet (timerRef s) s in
  clearIfSet (tapTimeoutRef s1) s1.

(** The slider only offers tempos from 40 to 280. *)
Definition slider_ok (ev : Event) : Prop :=
  match ev with
  | TempoChange v => 40 ≤ v ≤ 280
  | _ => True
  end.

(** ** The tap estimate on binary64 numbers *)

(** A JavaScript number: [spec_float] at precision 53, exponents up to
    1024. *)
Definition f64 : Type := spec_float.

Definition f64_of_Z (z : Z) : f64 := binary_normalize 53 1024 z 0 false.

Definition f64_add : f64 → f64 → f64 := SFadd 53 1024.

Definition f64_sub : f64 → f64 → f64 := SFsub 53 1024.

Definition f64_div : f64 → f64 → f64 := SFdiv 53 1024.

(** [a > b], false as soon as one side is [NaN]. *)
Definition f64_gtb (a b : f64) : bool := SFltb b a.

(** The real number a finite double stands for. *)
Definition f64_real (x : f64) : Q :=
  match x with
  | S754_finite s m e => inject_Z (cond_Zopp s (Zpos m)) * 2 ^ e
  | _ => 0
  end.

(** What [Math.round] can return. *)
Inductive JsNumber :=
  | Num (z : Z)
  | PlusInfinity
  | MinusInfinity
  | NotANumber.

(** [Math.round] on a double: exact on the real number it stands for
    (a negative zero result is not told apart from zero). *)
Definition Math_round64 (x : f64) : JsNumber :=
  match x with
  | S754_nan => NotANumber
  | S754_infinity s => if s then MinusInfinity else PlusInfinity
  | _ => Num (Math_round (f64_real x))
  end.

(** [Math.max(a, b)] and [Math.min(a, b)] for an integer [b]. *)
Definition Math_max (a : JsNumber) (b : Z) : JsNumber :=
  match a with
  | Num z => Num (Z.max z b)
  | PlusInfinity => PlusInfinity
  | MinusInfinity => Num b
  | NotANumber => NotANumber
  end.

Definition Math_min (a : JsNumber) (b : Z) : JsNumber :=
  match a with
  | Num z => Num (Z.min z b)
  | PlusInfinity => Num b
  | MinusInfinity => MinusInfinity
  | NotANumber => NotANumber
  end.

(** Lines 529 to 544 of [handleTapTempo] on doubles, behind the lockout
    test: the clear, the push and the shift. *)
Definition tapWindow64 (now : f64) (tapTimes : list f64) : list f64 :=
  let cleared :=
    if (0 <? length tapTimes)%nat
       && f64_gtb (f64_sub now (default S754_nan (last tapTimes)))
                  (f64_of_Z 1000)
    then [] else tapTimes in
  let pushed := cleared ++ [now] in
  if (3 <? length pushed)%nat then tail pushed else pushed.

Definition tapIntervals64 (tapTimes : list f64) : list f64 :=
  (λ i, f64_sub (nth i tapTimes S754_nan) (nth (i - 1) tapTimes S754_nan))
    <$> seq 1 (length tapTimes - 1).

Definition averageInterval64 (intervals : list f64) : f64 :=
  f64_div (foldl f64_add (f64_of_Z 0) intervals)
          (f64_of_Z (Z.of_nat (length intervals))).

(** Lines 546 to 563 on doubles: the argument of [setTempo]. *)
Definition tapTempo64 (tapTimes : list f64) : option JsNumber :=
  if (2 <=? length tapTimes)%nat then
    let averageInterval := averageInterval64 (tapIntervals64 tapTimes) in
    let newTempo := Math_round64 (f64_div (f64_of_Z 60000) averageInterval) in
    Some (Math_min (Math_max newTempo 40) 800)
  else None.

(** One tap: what it returns and the window it leaves. *)
Definition registerTap64 (now : f64) (tapTimes : list f64)
  : option JsNumber * list f64 :=
  let window := tapWindow64 now tapTimes in
  (tapTempo64 window, window).

(** The specification's steps 1 and 2 on doubles: clear after a gap of
    more than a second, append, keep the latest three. *)
Definition spec_window64 (timestamp : f64) (window : list f64) : list f64 :=
  let kept :=
    match last window with
    | Some lastTap =>
        if f64_gtb (f64_sub timestamp lastTap) (f64_of_Z 1000) then []
        else window
    | None => window
    end in
  let appended := kept ++ [timestamp] in
  drop (length appended - 3) appended.

(** The specification's step 4: the gaps between consecutive taps and
    their average. *)
Definition spec_gaps64 (window : list f64) : list f64 :=
  zip_with f64_sub (tail window) window.

Definition spec_average64 (gaps : list f64) : f64 :=
  f64_div (foldl f64_add (f64_of_Z 0) gaps) (f64_of_Z (Z.of_nat (length gaps))).

(** [r] is [x] rounded to the nearest integer, halves upwards. *)
Definition rounds_to (x : Q) (r : Z) : Prop :=
  (inject_Z r - (1 # 2) <= x)%Q ∧ (x < inject_Z r + (1 # 2))%Q.

(** [bpm] is [r] clamped to the range from [lo] to [hi]. *)
Definition clamps_to (lo hi r bpm : Z) : Prop :=
  (r < lo ∧ bpm = lo) ∨ (lo ≤ r ≤ hi ∧ bpm = r) ∨ (hi < r ∧ bpm = hi).

(** The specification's steps 4 and 5 for a quotient that is a number:
    rounded and clamped, an infinite quotient clamping to the nearer
    bound. *)
Definition estimate_of (quotient : f64) (bpm : Z) : Prop :=
  match quotient with
  | S754_nan => False
  | S754_infinity s => bpm = if s then 40 else 800
  | _ => ∃ r, rounds_to (f64_real quotient) r ∧ clamps_to 40 800 r bpm
  end.

(** A double that is a finite number. *)
Definition f64_finite (x : f64) : Prop :=
  match x with
  | S754_zero _ | S754_finite _ _ _ => True
  | _ => False
  end.

(** The decimal [z / 10], as the nearest double. *)
Definition tenths (z : Z) : f64 := f64_div (f64_of_Z z) (f64_of_Z 10).

(** ** The tick interval on binary64 numbers *)








#[global] Instance f64_eq_dec : EqDecision spec_float.
Proof. solve_decision. Defined.


(** ** Sample runs with a stale start callback *)

(** The claim C3 as the specification words it, for the tick of timer
    [h]: the cursor's beat is sounded, then shown, and the cursor advances
    modulo the beat count of the time signature. *)
Definition tick_advances_in_signature (h : Z) (s : Metronome) : Prop :=
  sounded_shown_advanced (beats (timeSignature s)) s (runInterval h s).

(** A double click on the start button, the delayed start of the first
    click firing on the stopped component, 3/4 selected, and one tick. *)
Definition staleStart : Metronome :=
  run [ClickStartStop; ClickStartStop; TimeoutFires 1;
       SelectSignature threeFour; IntervalFires 2] initial.

(** The claim C5 as the specification words it, for a tick of timer [h]
    in a state [s'] reached after signature [e] was selected: the cursor
    advances modulo the new beat count. *)
Definition advances_in_new_signature (e : SignatureEntry) (h : Z)
    (s' : Metronome) : Prop :=
  nextBeatRef (step s' (IntervalFires h))
  = ((nextBeatRef s' + 1) mod beats (newSignature e))%nat.

(** Playing, with the reschedule of a second tap still pending. *)
Definition tappedWhilePlaying : Metronome :=
  run [ClickStartStop; TimeoutFires 1; Tap 0; Tap 500] initial.

(** * Properties *)

(** ** Tick interval *)

Lemma inject_Z_nonzero (z : Z) : 0 < z → ¬ (inject_Z z == 0)%Q.
Proof. unfold Qeq. simpl. lia. Qed.

Lemma per_minute (bpm : Z) :
  0 < bpm → ((60 / inject_Z bpm) * 1000 == 60000 / inject_Z bpm)%Q.
Proof. intros Hpos. field. by apply inject_Z_nonzero. Qed.

(** [startMetronome] floors its interval at 10ms for every positive tempo. *)
Lemma startIntervalMs_floored (bpm : Z) :
  0 < bpm → (startIntervalMs bpm == Qmax (60000 / inject_Z bpm) 10)%Q.
Proof.
  intros Hpos. unfold startIntervalMs.
  apply Q.max_compat; [by apply per_minute | reflexivity].
Qed.

Lemma startIntervalMs_ge_10 (bpm : Z) : (10 <= startIntervalMs bpm)%Q.
Proof. unfold startIntervalMs. apply Q.le_max_r. Qed.



Lemma signatureIntervalMs_too_fast (bpm : Z) :
  6000 < bpm → (signatureIntervalMs bpm < 10)%Q.
Proof.
  intros Hfast. unfold signatureIntervalMs.
  rewrite per_minute by lia. apply Qlt_shift_div_r.
  - unfold Qlt. simpl. lia.
  - unfold Qlt. simpl. lia.
Qed.


(** ** One live timer *)

(** Handlers that leave the timer cells alone keep the invariant. *)
Lemma owned_frame (s s' : Metronome) :
  intervals s' = intervals s → timerRef s' = timerRef s →
  nextHandle s' = nextHandle s → owned s → owned s'.
Proof.
  intros Hi Hr Hn [Hlive Hpos]. split.
  - rewrite Hi, Hr. exact Hlive.
  - by rewrite Hn.
Qed.

Lemma owned_clearTimer (h : Z) (s : Metronome) : owned s → owned (clearTimer h s).
Proof.
  intros [Hlive Hpos]. split; [|done]. simpl. intros k t Hk.
  apply lookup_delete_Some in Hk as [_ Hk]. by apply (Hlive k t).
Qed.

Lemma owned_clearIfSet (r : option Z) (s : Metronome) :
  owned s → owned (clearIfSet r s).
Proof.
  intros Hs. unfold clearIfSet. destruct r as [h|]; [|done].
  destruct (truthy (Some h)); [by apply owned_clearTimer | done].
Qed.

(** Cancelling through [timerRef] leaves no repeating timer behind. *)
Lemma cancel_all (s : Metronome) :
  owned s → intervals (clearIfSet (timerRef s) s) = ∅.
Proof.
  intros [Hlive _]. apply map_empty. intros k.
  destruct (intervals (clearIfSet (timerRef s) s) !! k) as [t|] eqn:Hk; [|done].
  exfalso. unfold clearIfSet in Hk.
  destruct (timerRef s) as [h|] eqn:Href.
  - destruct (truthy (Some h)) eqn:Htruthy; simpl in Hk.
    + apply lookup_delete_Some in Hk as [Hne Hk].
      apply Hlive in Hk as [Hk _]. congruence.
    + apply Hlive in Hk as [Hk Hpos]. simpl in Htruthy.
      assert (h = k) by congruence. subst. 
      apply negb_false_iff, Z.eqb_eq in Htruthy. lia.
  - apply Hlive in Hk as [Hk _]. congruence.
Qed.

Lemma clearIfSet_timerRef r s : timerRef (clearIfSet r s) = timerRef s.
Proof. unfold clearIfSet. destruct r; [destruct (truthy _)|]; done. Qed.

Lemma clearIfSet_nextHandle r s : nextHandle (clearIfSet r s) = nextHandle s.
Proof. unfold clearIfSet. destruct r; [destruct (truthy _)|]; done. Qed.

Lemma clearIfSet_isPlaying r s : isPlaying (clearIfSet r s) = isPlaying s.
Proof. unfold clearIfSet. destruct r; [destruct (truthy _)|]; done. Qed.

Lemma clearIfSet_nextBeatRef r s : nextBeatRef (clearIfSet r s) = nextBeatRef s.
Proof. unfold clearIfSet. destruct r; [destruct (truthy _)|]; done. Qed.

Lemma clearIfSet_tempoRef r s : tempoRef (clearIfSet r s) = tempoRef s.
Proof. unfold clearIfSet. destruct r; [destruct (truthy _)|]; done. Qed.

Lemma clearIfSet_log r s : log (clearIfSet r s) = log s.
Proof. unfold clearIfSet. destruct r; [destruct (truthy _)|]; done. Qed.

(** Arming on an empty table and storing the handle. *)
Lemma owned_arm (t : IntervalTimer) (s : Metronome) :
  intervals s = ∅ → 0 < nextHandle s →
  owned (set_timerRef (Some (nextHandle s)) (snd (setInterval t s))).
Proof.
  intros Hempty Hpos. split; simpl; [|lia].
  intros k t' Hk. rewrite Hempty in Hk.
  apply lookup_insert_Some in Hk as [[<- _]|[_ Hk]]; [done|].
  by rewrite lookup_empty in Hk.
Qed.

Lemma owned_startMetronome (count : nat) (s : Metronome) :
  owned s → owned (startMetronome count s).
Proof.
  intros Hs. unfold startMetronome.
  set (s1 := clearIfSet (timerRef s) s).
  assert (Hempty : intervals (fireBeat count s1) = ∅) by (by apply cancel_all).
  assert (Hpos : 0 < nextHandle (fireBeat count s1)).
  { simpl. unfold s1. rewrite clearIfSet_nextHandle. apply Hs. }
  exact (owned_arm _ _ Hempty Hpos).
Qed.

Lemma owned_setTimeout (t : TimeoutTask) (s : Metronome) :
  owned s → owned (snd (setTimeout t s)).
Proof. intros [Hlive Hpos]. split; simpl; [done | lia]. Qed.

Lemma owned_startStop (s : Metronome) : owned s → owned (startStop s).
Proof.
  intros Hs. unfold startStop. destruct (isPlaying s).
  - eapply owned_frame; [..|apply (owned_clearIfSet (timerRef s) (ensureAudioContext s))]; try done.
    by eapply owned_frame; [..|exact Hs].
  - simpl. destruct (isFirstClickRef s).
    + destruct Hs as [Hlive Hpos]. split; simpl; [done | lia].
    + apply owned_startMetronome. by eapply owned_frame; [..|exact Hs].
Qed.

Lemma owned_onSignatureChange (e : SignatureEntry) (s : Metronome) :
  owned s → owned (onSignatureChange e s).
Proof.
  intros Hs. unfold onSignatureChange. destruct (isPlaying s).
  - set (s2 := set_accentBeats _ _).
    assert (Hs2 : owned s2) by (by eapply owned_frame; [..|exact Hs]).
    set (s5 := setCurrentBeat 0 (set_nextBeatRef 0%nat (clearIfSet (timerRef s2) s2))).
    assert (Hempty : intervals s5 = ∅) by (by apply (cancel_all s2)).
    assert (Hpos : 0 < nextHandle s5).
    { simpl. rewrite clearIfSet_nextHandle. apply Hs. }
    exact (owned_arm _ _ Hempty Hpos).
  - by eapply owned_frame; [..|exact Hs].
Qed.

Lemma owned_handleTapTempo (now : Q) (s : Metronome) :
  owned s → owned (snd (handleTapTempo now s)).
Proof.
  intros Hs. unfold handleTapTempo.
  destruct (truthy (winLockoutRef s)); [done|].
  set (s1 := set_tapTimesRef _ s).
  assert (Hs1 : owned s1) by (by eapply owned_frame; [..|exact Hs]).
  destruct (tapTempo (tapTimesRef s1)) as [clampedTempo|]; [|done].
  simpl snd.
  set (s3 := if _ && _ then _ else _).
  assert (Hs3 : owned s3).
  { unfold s3. destruct (_ && _).
    - eapply owned_frame;
        [..|apply (owned_setTimeout ExpireWinLockout), owned_clearIfSet]; try done.
      by eapply owned_frame; [..|exact Hs1].
    - by eapply owned_frame; [..|exact Hs1]. }
  destruct (isPlaying s); [|done].
  eapply owned_frame;
    [..|apply (owned_setTimeout (RunStartMetronome (beats (timeSignature s)))),
         (owned_clearIfSet (tapTimeoutRef s3)), Hs3]; done.
Qed.

Lemma owned_runTimeout (h : Z) (s : Metronome) : owned s → owned (runTimeout h s).
Proof.
  intros Hs. unfold runTimeout. destruct (timeouts s !! h) as [[count|]|]; [..|done].
  - apply owned_startMetronome. by eapply owned_frame; [..|exact Hs].
  - by eapply owned_frame; [..|exact Hs].
Qed.

Lemma owned_runInterval (h : Z) (s : Metronome) : owned s → owned (runInterval h s).
Proof.
  intros Hs. unfold runInterval. destruct (intervals s !! h); [|done].
  by eapply owned_frame; [..|exact Hs].
Qed.

Lemma owned_handle (ev : Event) (s : Metronome) : owned s → owned (handle ev s).
Proof.
  intros Hs. destruct ev; simpl.
  - by apply owned_startStop.
  - by eapply owned_frame; [..|exact Hs].
  - unfold onTempoCommit. destruct (isPlaying s); [by apply owned_startMetronome | done].
  - by apply owned_onSignatureChange.
  - by apply owned_handleTapTempo.
  - by eapply owned_frame; [..|exact Hs].
  - by eapply owned_frame; [..|exact Hs].
  - by apply owned_runTimeout.
  - by apply owned_runInterval.
  - by eapply owned_frame; [..|exact Hs].
Qed.

Lemma owned_commit (before s : Metronome) : owned s → owned (commit before s).
Proof.
  intros Hs. unfold commit.
  set (s1 := if decide _ then _ else _).
  assert (Hs1 : owned s1).
  { unfold s1. destruct (decide _); [done|]. by eapply owned_frame; [..|exact Hs]. }
  set (s2 := mirrorRefs s1).
  assert (Hs2 : owned s2) by (by eapply owned_frame; [..|exact Hs1]).
  destruct (eqb _ _); [done|]. destruct (isPlaying s2); [done|].
  by apply owned_clearIfSet.
Qed.

Lemma owned_initial : owned initial.
Proof. split; [|done]. intros h t Hh. simpl in Hh. by rewrite lookup_empty in Hh. Qed.

Lemma owned_step (s : Metronome) (ev : Event) : owned s → owned (step s ev).
Proof. intros Hs. by apply owned_commit, owned_handle. Qed.

Lemma owned_run (evs : list Event) (s : Metronome) : owned s → owned (run evs s).
Proof.
  revert s. induction evs as [|ev evs IH]; intros s Hs; [done|].
  simpl. by apply IH, owned_step.
Qed.

(** A table whose keys all equal the stored handle has at most one entry. *)
Lemma owned_size (s : Metronome) : owned s → (size (intervals s) ≤ 1)%nat.
Proof.
  intros [Hlive _].
  destruct (map_choose_or_empty (intervals s)) as [(h & t & Hh)| ->];
    [|rewrite map_size_empty; lia].
  assert (Heq : intervals s = {[h := t]}).
  { apply map_eq. intros k. destruct (decide (k = h)) as [->|Hne].
    - by rewrite lookup_singleton_eq.
    - rewrite lookup_singleton_ne by done.
      destruct (intervals s !! k) as [t'|] eqn:Hk; [|done].
      apply Hlive in Hk as [Hk _]. apply Hlive in Hh as [Hh _]. congruence. }
  rewrite Heq, map_size_singleton. lia.
Qed.


(** ** What arming does *)

Lemma startMetronome_intervals (count : nat) (s : Metronome) :
  owned s →
  intervals (startMetronome count s) = {[ nextHandle s := startTimer count s ]}.
Proof.
  intros Hs. unfold startMetronome. simpl.
  rewrite (cancel_all s Hs), clearIfSet_nextHandle, clearIfSet_tempoRef.
  by rewrite insert_empty.
Qed.

Lemma startMetronome_timerRef (count : nat) (s : Metronome) :
  timerRef (startMetronome count s) = Some (nextHandle s).
Proof. unfold startMetronome. simpl. by rewrite clearIfSet_nextHandle. Qed.

Lemma startMetronome_isPlaying (count : nat) (s : Metronome) :
  isPlaying (startMetronome count s) = isPlaying s.
Proof. unfold startMetronome. simpl. by rewrite clearIfSet_isPlaying. Qed.

Lemma playClick_log (c : nat) (s : Metronome) :
  log (playClick c s) = log s ++ [PlayClick c (soundAt c s)].
Proof.
  unfold playClick, soundAt. simpl.
  destruct (audioContextRef s); [|done].
  by destruct (js_get (accentBeatsRef s) c).
Qed.

Lemma fireBeat_order (count : nat) (s : Metronome) :
  sounded_shown_advanced count s (fireBeat count s).
Proof.
  unfold sounded_shown_advanced, fireBeat. cbn -[playClick Nat.modulo].
  assert (Hn : nextBeatRef (playClick (nextBeatRef s) s) = nextBeatRef s) by done.
  rewrite !Hn, playClick_log, <- app_assoc. done.
Qed.

Lemma clearIfSet_soundAt c r s : soundAt c (clearIfSet r s) = soundAt c s.
Proof. unfold clearIfSet. destruct r; [destruct (truthy _)|]; done. Qed.

Lemma startMetronome_order (count : nat) (s : Metronome) :
  sounded_shown_advanced count s (startMetronome count s).
Proof.
  destruct (fireBeat_order count (clearIfSet (timerRef s) s)) as (Hlog & Hcur & Hnext).
  rewrite clearIfSet_log, clearIfSet_nextBeatRef, clearIfSet_soundAt in *.
  unfold sounded_shown_advanced, startMetronome.
  split; [|split]; [exact Hlog | exact Hcur | exact Hnext].
Qed.

(** ** Effects after a render *)

Lemma commit_mirrors (before s : Metronome) :
  let s' := commit before s in
  tempoRef s' = tempo s' ∧ volumeRef s' = volume s'
  ∧ accentBeatsRef s' = accentBeats s'.
Proof.
  unfold commit. cbn zeta.
  set (s1 := if decide _ then _ else _).
  set (s2 := mirrorRefs s1).
  assert (H2 : tempoRef s2 = tempo s2 ∧ volumeRef s2 = volume s2
               ∧ accentBeatsRef s2 = accentBeats s2) by done.
  destruct (eqb _ _); [done|]. destruct (isPlaying s2); [done|].
  unfold clearIfSet. destruct (timerRef s2); [destruct (truthy _)|]; done.
Qed.

(** No effect touches the timers while [isPlaying] keeps its value. *)
Lemma commit_keeps_timers (before s : Metronome) :
  isPlaying s = isPlaying before →
  intervals (commit before s) = intervals s
  ∧ timerRef (commit before s) = timerRef s
  ∧ nextHandle (commit before s) = nextHandle s
  ∧ nextBeatRef (commit before s) = nextBeatRef s
  ∧ currentBeat (commit before s) = currentBeat s
  ∧ log (commit before s) = log s
  ∧ isPlaying (commit before s) = isPlaying s
  ∧ timeSignature (commit before s) = timeSignature s
  ∧ tempo (commit before s) = tempo s.
Proof.
  intros Hplay. unfold commit.
  set (s1 := if decide _ then _ else _).
  assert (H1 : intervals s1 = intervals s ∧ timerRef s1 = timerRef s
    ∧ nextHandle s1 = nextHandle s ∧ nextBeatRef s1 = nextBeatRef s
    ∧ currentBeat s1 = currentBeat s ∧ log s1 = log s
    ∧ isPlaying s1 = isPlaying s ∧ timeSignature s1 = timeSignature s
    ∧ tempo s1 = tempo s).
  { unfold s1. by destruct (decide _). }
  destruct H1 as (?&?&?&?&?&?&Hp&?&?).
  cbn [isPlaying mirrorRefs set_accentBeatsRef set_volumeRef set_tempoRef].
  replace (eqb (isPlaying before) (isPlaying s1)) with true
    by (rewrite Hp, Hplay; symmetry; apply eqb_reflx).
  simpl. done.
Qed.

(** With the beat count and [isPlaying] unchanged, the render only
    mirrors state into the refs. *)
Lemma commit_quiet (before s : Metronome) :
  isPlaying s = isPlaying before →
  beats (timeSignature s) = beats (timeSignature before) →
  commit before s = mirrorRefs s.
Proof.
  intros Hplay Hbeats. unfold commit.
  destruct (decide _) as [_|Hne]; [|congruence].
  cbn [isPlaying mirrorRefs set_accentBeatsRef set_volumeRef set_tempoRef].
  by rewrite Hplay, eqb_reflx.
Qed.

Lemma mirrored_commit (before s : Metronome) : mirrored (commit before s).
Proof. destruct (commit_mirrors before s) as (?&?&?). by split. Qed.

Lemma run_snoc (evs : list Event) (ev : Event) (s : Metronome) :
  run (evs ++ [ev]) s = step (run evs s) ev.
Proof. unfold run. by rewrite foldl_app. Qed.

Lemma mirrored_run (evs : list Event) : mirrored (run evs initial).
Proof.
  destruct evs as [|ev evs _] using rev_ind; [by split|].
  rewrite run_snoc. apply mirrored_commit.
Qed.

Lemma mirrorRefs_id (s : Metronome) : mirrored s → mirrorRefs s = s.
Proof. intros [Ht Hv Ha]. destruct s. simpl in *. by subst. Qed.


Lemma onSignatureChange_playing (e : SignatureEntry) (s : Metronome) :
  owned s → isPlaying s = true →
  let s' := onSignatureChange e s in
  intervals s' = {[ nextHandle s := signatureTimer e s ]}
  ∧ timerRef s' = Some (nextHandle s)
  ∧ nextBeatRef s' = 0%nat ∧ currentBeat s' = 0%nat
  ∧ isPlaying s' = true
  ∧ timeSignature s' = newSignature e
  ∧ accentBeats s' = handlerAccents (newSignature e)
  ∧ log s' = log s ++ [SetCurrentBeat 0].
Proof.
  intros Hs Hplay. unfold onSignatureChange. rewrite Hplay.
  set (s2 := set_accentBeats _ _).
  assert (Hs2 : owned s2) by (by eapply owned_frame; [..|exact Hs]).
  pose proof (cancel_all s2 Hs2) as Hnone.
  change (timerRef s2) with (timerRef s) in Hnone.
  cbn -[clearIfSet signatureIntervalMs].
  rewrite Hnone, !clearIfSet_nextHandle, clearIfSet_tempoRef,
    clearIfSet_isPlaying, clearIfSet_log, insert_empty.
  assert (Hts : timeSignature (clearIfSet (timerRef s) s2) = newSignature e).
  { unfold clearIfSet. destruct (timerRef s); [destruct (truthy _)|]; done. }
  assert (Hab : accentBeats (clearIfSet (timerRef s) s2)
                = handlerAccents (newSignature e)).
  { unfold clearIfSet. destruct (timerRef s); [destruct (truthy _)|]; done. }
  rewrite Hts, Hab. done.
Qed.

Lemma onSignatureChange_intervals (e : SignatureEntry) (s : Metronome) :
  owned s →
  intervals (onSignatureChange e s) =
    if isPlaying s then {[ nextHandle s := signatureTimer e s ]}
    else intervals s.
Proof.
  intros Hs. destruct (isPlaying s) eqn:Hplay.
  - by apply onSignatureChange_playing.
  - unfold onSignatureChange. by rewrite Hplay.
Qed.

(** C2.  In every state the component can reach there is at most one live
    repeating timer, and it is the one [timerRef] holds; both arming sites
    ([startMetronome], behind start, tempo commit and the tap timeout, and
    the select handler while playing) leave exactly the timer they armed,
    so the one that was live before has been cancelled. *)
Theorem at_most_one_live_timer (evs : list Event) :
  let s := run evs initial in
  (size (intervals s) ≤ 1)%nat
  ∧ (∀ h, is_Some (intervals s !! h) → timerRef s = Some h)
  ∧ (∀ count,
       intervals (startMetronome count s)
       = {[ nextHandle s := startTimer count s ]})
  ∧ (∀ e,
       intervals (onSignatureChange e s)
       = if isPlaying s then {[ nextHandle s := signatureTimer e s ]}
         else intervals s).
Proof.
  intros s. assert (Hs : owned s) by apply owned_run, owned_initial.
  split; [by apply owned_size|]. split; [|split].
  - intros h [t Hh]. by apply (live_is_ref s Hs h t).
  - intros count. by apply startMetronome_intervals.
  - intros e. by apply onSignatureChange_intervals.
Qed.

(** A beat — the tick of a live repeating timer or the immediate beat of
    [startMetronome] — first calls the tone generator for the cursor's
    beat, then the visual callback with the same cursor, and only then
    advances the cursor, modulo the beat count its closure holds. *)
Lemma beat_sounds_shows_advances (count : nat) (s : Metronome) :
  sounded_shown_advanced count s (startMetronome count s)
  ∧ ∀ h t, intervals s !! h = Some t →
           sounded_shown_advanced (modulus t) s (runInterval h s).
Proof.
  split; [apply startMetronome_order|].
  intros h t Hh. unfold runInterval. rewrite Hh. apply fireBeat_order.
Qed.


(** C3, at an input the component can receive.  A double click on start
    leaves the delayed start pending; it fires on the stopped component
    and arms a timer that holds the beat count of that render, 4.  With
    3/4 selected afterwards, the tick at cursor 2 still sounds beat 2 and
    then shows beat 2, but advances the cursor to 3 and not to
    [(2 + 1) mod 3]; the next tick sounds and shows a beat 3 that the
    signature does not have. *)
Theorem stale_start_outruns_beat_count :
  isPlaying staleStart = false
  ∧ beats (timeSignature staleStart) = 3%nat
  ∧ nextBeatRef staleStart = 2%nat
  ∧ (modulus <$> intervals staleStart !! 2) = Some 4%nat
  ∧ log (step staleStart (IntervalFires 2))
    = log staleStart ++ [PlayClick 2 (soundAt 2 staleStart); SetCurrentBeat 2]
  ∧ nextBeatRef (step staleStart (IntervalFires 2)) = 3%nat
  ∧ ¬ tick_advances_in_signature 2 staleStart
  ∧ currentBeat (run [IntervalFires 2; IntervalFires 2] staleStart) = 3%nat.
Proof.
  split; [vm_compute; reflexivity|]. split; [vm_compute; reflexivity|].
  split; [vm_compute; reflexivity|]. split; [vm_compute; reflexivity|].
  split; [vm_compute; reflexivity|]. split; [vm_compute; reflexivity|].
  split; [|vm_compute; reflexivity].
  intros (_ & _ & Hnext). vm_compute in Hnext. discriminate.
Qed.

(** ** Tempo change while running *)

Lemma startMetronome_timeSignature (count : nat) (s : Metronome) :
  timeSignature (startMetronome count s) = timeSignature s.
Proof.
  unfold startMetronome. simpl. unfold clearIfSet.
  destruct (timerRef s); [destruct (truthy _)|]; done.
Qed.

Lemma step_TempoChange (v : Z) (s : Metronome) :
  mirrored s → step s (TempoChange v) = set_tempoRef v (set_tempo v s).
Proof.
  intros [Ht Hv Ha]. unfold step. rewrite commit_quiet by done.
  destruct s. simpl in *. by subst.
Qed.

Lemma step_TempoCommit (s : Metronome) :
  isPlaying s = true →
  step s TempoCommit = mirrorRefs (startMetronome (beats (timeSignature s)) s).
Proof.
  intros Hplay. unfold step. simpl. unfold onTempoCommit. rewrite Hplay.
  apply commit_quiet.
  - by rewrite startMetronome_isPlaying.
  - by rewrite startMetronome_timeSignature.
Qed.

(** C4, as stated, fails: one second into 4/4 at 120, with the cursor on
    beat 1, committing tempo 150 leaves the cursor on beat 2. *)
Lemma tempo_change_moves_cursor :
  isPlaying playing = true ∧ ¬ tempo_change_keeps_cursor 150 playing.
Proof. split; [vm_compute; reflexivity|]. vm_compute. discriminate. Qed.

Lemma mirrorRefs_intervals s : intervals (mirrorRefs s) = intervals s.
Proof. reflexivity. Qed.

Lemma mirrorRefs_timerRef s : timerRef (mirrorRefs s) = timerRef s.
Proof. reflexivity. Qed.

Lemma mirrorRefs_log s : log (mirrorRefs s) = log s.
Proof. reflexivity. Qed.

Lemma mirrorRefs_nextBeatRef s : nextBeatRef (mirrorRefs s) = nextBeatRef s.
Proof. reflexivity. Qed.

Lemma reconfigureTempo_running (v : Z) (s : Metronome) :
  owned s → mirrored s → isPlaying s = true →
  let s' := reconfigureTempo v s in
  let c := nextBeatRef s in
  let count := beats (timeSignature s) in
  intervals s'
  = {[ nextHandle s := {| period := startIntervalMs v; modulus := count |} ]}
  ∧ timerRef s' = Some (nextHandle s)
  ∧ log s' = log s ++ [PlayClick c (soundAt c s); SetCurrentBeat c]
  ∧ nextBeatRef s' = ((c + 1) mod count)%nat.
Proof.
  cbv zeta. intros Hown Hmir Hplay.
  assert (Hs' : reconfigureTempo v s = step (step s (TempoChange v)) TempoCommit)
    by reflexivity.
  rewrite (step_TempoChange v s Hmir) in Hs'.
  set (s1 := set_tempoRef v (set_tempo v s)) in Hs'.
  assert (Hown1 : owned s1) by (by eapply owned_frame; [..|exact Hown]).
  assert (Hplay1 : isPlaying s1 = true) by exact Hplay.
  rewrite (step_TempoCommit s1 Hplay1) in Hs'.
  destruct (startMetronome_order (beats (timeSignature s1)) s1)
    as (Hlog & _ & Hnext).
  pose proof (startMetronome_intervals (beats (timeSignature s1)) s1 Hown1) as Hi.
  pose proof (startMetronome_timerRef (beats (timeSignature s1)) s1) as Hr.
  rewrite Hs'. clear Hs'.
  rewrite mirrorRefs_intervals, mirrorRefs_timerRef, mirrorRefs_log,
    mirrorRefs_nextBeatRef, Hi, Hr, Hlog, Hnext.
  repeat split.
Qed.

(** C4, amended.  Committing a new tempo while running cancels the live
    timer and arms one at the new tempo's interval; it also fires the beat
    under the cursor at once and advances the cursor by one modulo the
    beat count, so the cursor is neither kept nor reset and the beats
    continue in order. *)
Theorem tempo_change_fires_and_advances (evs : list Event) (v : Z) :
  isPlaying (run evs initial) = true →
  let s := run evs initial in
  let s' := reconfigureTempo v s in
  let c := nextBeatRef s in
  let count := beats (timeSignature s) in
  intervals s'
  = {[ nextHandle s := {| period := startIntervalMs v; modulus := count |} ]}
  ∧ timerRef s' = Some (nextHandle s)
  ∧ log s' = log s ++ [PlayClick c (soundAt c s); SetCurrentBeat c]
  ∧ nextBeatRef s' = ((c + 1) mod count)%nat.
Proof.
  cbv zeta. intros Hplay. apply reconfigureTempo_running; [| |exact Hplay].
  - apply owned_run, owned_initial.
  - apply mirrored_run.
Qed.

Lemma tempo_change_fires_and_advances_witness :
  isPlaying (run [ClickStartStop; TimeoutFires 1] initial) = true
  ∧ nextBeatRef (reconfigureTempo 150 (run [ClickStartStop; TimeoutFires 1] initial))
    = 2%nat.
Proof.
  assert (Hplay : isPlaying (run [ClickStartStop; TimeoutFires 1] initial) = true)
    by (vm_compute; reflexivity).
  split; [exact Hplay|].
  pose proof (tempo_change_fires_and_advances _ 150 Hplay) as H.
  cbv zeta in H. destruct H as (_ & _ & _ & Hnext).
  rewrite Hnext. vm_compute. reflexivity.
Defined.

(** ** Time-signature change while running *)

Lemma TIME_SIGNATURES_positive (e : SignatureEntry) :
  e ∈ TIME_SIGNATURES → (0 < beats (newSignature e))%nat.
Proof.
  unfold TIME_SIGNATURES. intros He.
  repeat (apply elem_of_cons in He as [->|He]; [simpl; lia|]).
  by apply elem_of_nil in He.
Qed.

Lemma step_IntervalFires (h : Z) (t : IntervalTimer) (s : Metronome) :
  intervals s !! h = Some t →
  step s (IntervalFires h) = mirrorRefs (fireBeat (modulus t) s).
Proof.
  intros Hh. unfold step. simpl. unfold runInterval. rewrite Hh.
  by apply commit_quiet.
Qed.

(** [k] ticks of a live timer walk the cursor round its modulus. *)
Lemma ticks_walk (k : nat) (h : Z) (t : IntervalTimer) (s : Metronome) :
  intervals s !! h = Some t → (nextBeatRef s < modulus t)%nat →
  nextBeatRef (run (replicate k (IntervalFires h)) s)
  = ((nextBeatRef s + k) mod modulus t)%nat.
Proof.
  revert s. induction k as [|k IH]; intros s Hh Hlt.
  - simpl. rewrite Nat.add_0_r, Nat.mod_small; done.
  - simpl. rewrite (step_IntervalFires h t s Hh).
    rewrite IH.
    + cbn. rewrite Nat.Div0.add_mod_idemp_l. f_equal. lia.
    + exact Hh.
    + cbn. apply Nat.mod_upper_bound. lia.
Qed.

(** Selecting a time signature while running cancels the live timer and
    arms a new one; the cursor is back at 0, and the ticks of the new
    timer, for as long as it stays armed, advance it modulo the new beat
    count. *)
Lemma signature_change_resets_cursor (evs : list Event) (e : SignatureEntry) :
  isPlaying (run evs initial) = true → e ∈ TIME_SIGNATURES →
  let s := run evs initial in
  let s' := reconfigureTimeSignature e s in
  let count := beats (newSignature e) in
  nextBeatRef s' = 0%nat ∧ currentBeat s' = 0%nat
  ∧ beats (timeSignature s') = count
  ∧ intervals s' = {[ nextHandle s := signatureTimer e s ]}
  ∧ timerRef s' = Some (nextHandle s)
  ∧ ∀ k, nextBeatRef (run (replicate k (IntervalFires (nextHandle s))) s')
         = (k mod count)%nat.
Proof.
  cbv zeta. generalize (owned_run evs initial owned_initial).
  generalize (run evs initial). intros s Hown Hplay He.
  destruct (onSignatureChange_playing e s Hown Hplay)
    as (Hi & Hr & Hn & Hc & Hp & Hts & _ & _).
  destruct (commit_keeps_timers s (onSignatureChange e s))
    as (Hi' & Hr' & _ & Hn' & Hc' & _ & _ & Hts' & _); [congruence|].
  unfold reconfigureTimeSignature, step.
  change (handle (SelectSignature e) s) with (onSignatureChange e s).
  rewrite Hi, Hr, Hn, Hc, Hts in *.
  split; [exact Hn'|]. split; [exact Hc'|]. split; [by rewrite Hts'|].
  split; [exact Hi'|]. split; [exact Hr'|].
  intros k.
  rewrite (ticks_walk k (nextHandle s) (signatureTimer e s)).
  - by rewrite Hn'.
  - by rewrite Hi', lookup_singleton_eq.
  - rewrite Hn'. by apply TIME_SIGNATURES_positive.
Qed.


(** C5, at an input the component can receive.  While playing in 4/4, a
    second tap leaves its reschedule pending with the [startMetronome] of
    that render.  Selecting 3/4 resets the cursor and arms a timer that
    counts to 3; the reschedule then fires, cancels that timer and arms
    one that counts to 4 again, so that a later tick takes the cursor from
    2 to 3 under a signature of three beats. *)
Theorem stale_reschedule_restores_old_count :
  isPlaying tappedWhilePlaying = true
  ∧ timeouts tappedWhilePlaying !! 3 = Some (RunStartMetronome 4)
  ∧ nextBeatRef (reconfigureTimeSignature threeFour tappedWhilePlaying) = 0%nat
  ∧ (modulus <$> intervals (reconfigureTimeSignature threeFour tappedWhilePlaying)
                   !! 4) = Some 3%nat
  ∧ beats (timeSignature
             (run [TimeoutFires 3]
                (reconfigureTimeSignature threeFour tappedWhilePlaying))) = 3%nat
  ∧ (modulus <$> intervals
                   (run [TimeoutFires 3]
                      (reconfigureTimeSignature threeFour tappedWhilePlaying))
                   !! 5) = Some 4%nat
  ∧ intervals
      (run [TimeoutFires 3]
         (reconfigureTimeSignature threeFour tappedWhilePlaying)) !! 4 = None
  ∧ nextBeatRef
      (run [TimeoutFires 3; IntervalFires 5]
         (reconfigureTimeSignature threeFour tappedWhilePlaying)) = 2%nat
  ∧ nextBeatRef
      (run [TimeoutFires 3; IntervalFires 5; IntervalFires 5]
         (reconfigureTimeSignature threeFour tappedWhilePlaying)) = 3%nat
  ∧ ¬ advances_in_new_signature threeFour 5
        (run [TimeoutFires 3; IntervalFires 5]
           (reconfigureTimeSignature threeFour tappedWhilePlaying)).
Proof.
  split; [vm_compute; reflexivity|]. split; [vm_compute; reflexivity|].
  split; [vm_compute; reflexivity|]. split; [vm_compute; reflexivity|].
  split; [vm_compute; reflexivity|]. split; [vm_compute; reflexivity|].
  split; [vm_compute; reflexivity|]. split; [vm_compute; reflexivity|].
  split; [vm_compute; reflexivity|].
  unfold advances_in_new_signature. vm_compute. discriminate.
Qed.

(** ** Accents after a time-signature change *)

Lemma clearIfSet_accentBeats r s : accentBeats (clearIfSet r s) = accentBeats s.
Proof. unfold clearIfSet. destruct r; [destruct (truthy _)|]; done. Qed.

Lemma clearIfSet_accentBeatsRef r s :
  accentBeatsRef (clearIfSet r s) = accentBeatsRef s.
Proof. unfold clearIfSet. destruct r; [destruct (truthy _)|]; done. Qed.

Lemma clearIfSet_timeSignature r s :
  timeSignature (clearIfSet r s) = timeSignature s.
Proof. unfold clearIfSet. destruct r; [destruct (truthy _)|]; done. Qed.

Lemma clearIfSet_audioContextRef r s :
  audioContextRef (clearIfSet r s) = audioContextRef s.
Proof. unfold clearIfSet. destruct r; [destruct (truthy _)|]; done. Qed.

Lemma clearIfSet_volumeRef r s : volumeRef (clearIfSet r s) = volumeRef s.
Proof. unfold clearIfSet. destruct r; [destruct (truthy _)|]; done. Qed.

(** What a render leaves in [accentBeats]. *)
Lemma commit_accentBeats (before s : Metronome) :
  accentBeats (commit before s)
  = if decide (beats (timeSignature before) = beats (timeSignature s))
    then accentBeats s
    else accentEffect (beats (timeSignature s)) (accentBeats s).
Proof.
  unfold commit.
  set (s1 := if decide _ then _ else _).
  assert (H1 : accentBeats s1
    = if decide (beats (timeSignature before) = beats (timeSignature s))
      then accentBeats s
      else accentEffect (beats (timeSignature s)) (accentBeats s)).
  { unfold s1. by destruct (decide _). }
  rewrite <- H1.
  destruct (eqb _ _); [done|]. destruct (isPlaying _); [done|].
  by rewrite clearIfSet_accentBeats.
Qed.

Lemma commit_timeSignature (before s : Metronome) :
  timeSignature (commit before s) = timeSignature s.
Proof.
  unfold commit.
  set (s1 := if decide _ then _ else _).
  assert (H1 : timeSignature s1 = timeSignature s).
  { unfold s1. by destruct (decide _). }
  rewrite <- H1.
  destruct (eqb _ _); [done|]. destruct (isPlaying _); [done|].
  by rewrite clearIfSet_timeSignature.
Qed.

Lemma onSignatureChange_accentBeats (e : SignatureEntry) (s : Metronome) :
  accentBeats (onSignatureChange e s) = handlerAccents (newSignature e).
Proof.
  unfold onSignatureChange. destruct (isPlaying s); [|done].
  cbn -[clearIfSet handlerAccents newSignature]. by rewrite clearIfSet_accentBeats.
Qed.

Lemma onSignatureChange_timeSignature (e : SignatureEntry) (s : Metronome) :
  timeSignature (onSignatureChange e s) = newSignature e.
Proof.
  unfold onSignatureChange. destruct (isPlaying s); [|done].
  cbn -[clearIfSet handlerAccents newSignature]. by rewrite clearIfSet_timeSignature.
Qed.

Lemma handlerAccents_table (e : SignatureEntry) :
  e ∈ TIME_SIGNATURES →
  handlerAccents (newSignature e) = resetAccents e
  ∧ accentEffect (beats (newSignature e)) (resetAccents e) = resetAccents e
  ∧ length (resetAccents e) = beats (newSignature e).
Proof.
  unfold TIME_SIGNATURES. intros He.
  repeat (apply elem_of_cons in He as [->|He]; [by vm_compute|]).
  by apply elem_of_nil in He.
Qed.

(** C6, as stated, fails: in 4/4 with beats 0 and 1 accented, selecting
    3/4 leaves [true; false; false], so beat 1 has lost its accent. *)
Lemma signature_change_drops_accents :
  let s := run [ToggleAccent 1] initial in
  accentBeats s = [true; true; false; false]
  ∧ accentBeats (reconfigureTimeSignature threeFour s) = [true; false; false]
  ∧ ¬ accents_carried_over (accentBeats s) 3
        (accentBeats (reconfigureTimeSignature threeFour s)).
Proof.
  cbv zeta.
  assert (Hold : accentBeats (run [ToggleAccent 1] initial)
                 = [true; true; false; false]) by (vm_compute; reflexivity).
  assert (Hnew : accentBeats (reconfigureTimeSignature threeFour
                                (run [ToggleAccent 1] initial))
                 = [true; false; false]) by (vm_compute; reflexivity).
  rewrite Hold, Hnew. split; [done|]. split; [done|].
  intros (_ & Hkeep & _). specialize (Hkeep 1%nat). simpl in Hkeep.
  assert (Some false = Some true) by (apply Hkeep; lia). discriminate.
Qed.

(** C6, amended.  Selecting a time signature resets the accent pattern: its
    length is the new beat count, every entry after the first is [false]
    whatever the old pattern held, and the first entry is [true] except
    for "None", whose pattern is [[false]]. *)
Theorem signature_change_resets_accents (e : SignatureEntry) (s : Metronome) :
  e ∈ TIME_SIGNATURES →
  let s' := reconfigureTimeSignature e s in
  accentBeats s' = resetAccents e
  ∧ accentBeatsRef s' = resetAccents e
  ∧ length (accentBeats s') = beats (timeSignature s').
Proof.
  cbv zeta. intros He.
  destruct (handlerAccents_table e He) as (Hh & Heff & Hlen).
  assert (Ha : accentBeats (reconfigureTimeSignature e s) = resetAccents e).
  { unfold reconfigureTimeSignature, step.
    change (handle (SelectSignature e) s) with (onSignatureChange e s).
    rewrite commit_accentBeats, onSignatureChange_accentBeats,
      onSignatureChange_timeSignature, Hh.
    by destruct (decide _). }
  split; [exact Ha|]. split.
  - destruct (commit_mirrors s (handle (SelectSignature e) s)) as (_ & _ & Hm).
    unfold reconfigureTimeSignature, step in *. by rewrite Hm.
  - rewrite Ha, Hlen. unfold reconfigureTimeSignature, step.
    change (handle (SelectSignature e) s) with (onSignatureChange e s).
    by rewrite commit_timeSignature, onSignatureChange_timeSignature.
Qed.

Lemma signature_change_resets_accents_witness :
  threeFour ∈ TIME_SIGNATURES
  ∧ accentBeats (reconfigureTimeSignature threeFour (run [ToggleAccent 1] initial))
    = [true; false; false].
Proof.
  assert (He : threeFour ∈ TIME_SIGNATURES).
  { unfold TIME_SIGNATURES, threeFour. do 2 apply list_elem_of_further.
    apply list_elem_of_here. }
  split; [exact He|].
  pose proof (signature_change_resets_accents threeFour
                (run [ToggleAccent 1] initial) He) as H.
  cbv zeta in H. destruct H as (Ha & _). rewrite Ha. reflexivity.
Defined.

(** C10.  Selecting "None" leaves one beat whose pattern is [[false]]:
    the lone beat is unaccented, and every click sounded from that state
    has the non-accent timbre (800 Hz at 0.7 of the volume). *)
Theorem none_signature_is_unaccented (b : nat) (v : Denominator) (s : Metronome) :
  let s' := reconfigureTimeSignature
              {| isNone := true; entryBeats := b; entryValue := v |} s in
  timeSignature s' = {| beats := 1; value := DenNone |}
  ∧ accentBeats s' = [false]
  ∧ accentBeatsRef s' = [false]
  ∧ ∀ i, log (playClick i s')
         = log s' ++ [PlayClick i
             (if audioContextRef s' then
                Some {| isAccent := false; clickFrequency := 800;
                        beatVolume := (volumeRef s' * (7 # 10))%Q |}
              else None)].
Proof.
  cbv zeta. set (e := {| isNone := true; entryBeats := b; entryValue := v |}).
  assert (Hts : timeSignature (reconfigureTimeSignature e s)
                = {| beats := 1; value := DenNone |}).
  { unfold reconfigureTimeSignature, step.
    change (handle (SelectSignature e) s) with (onSignatureChange e s).
    by rewrite commit_timeSignature, onSignatureChange_timeSignature. }
  assert (Ha : accentBeats (reconfigureTimeSignature e s) = [false]).
  { unfold reconfigureTimeSignature, step.
    change (handle (SelectSignature e) s) with (onSignatureChange e s).
    rewrite commit_accentBeats, onSignatureChange_accentBeats,
      onSignatureChange_timeSignature.
    by destruct (decide _). }
  assert (Hr : accentBeatsRef (reconfigureTimeSignature e s) = [false]).
  { destruct (commit_mirrors s (handle (SelectSignature e) s)) as (_ & _ & Hm).
    unfold reconfigureTimeSignature, step in *. by rewrite Hm. }
  split; [exact Hts|]. split; [exact Ha|]. split; [exact Hr|].
  intros i. rewrite playClick_log. unfold soundAt. rewrite Hr.
  destruct (audioContextRef _); [|done].
  by destruct i.
Qed.


(** ** Tap tempo *)

Lemma clearIfSet_tapTimesRef r s : tapTimesRef (clearIfSet r s) = tapTimesRef s.
Proof. unfold clearIfSet. destruct r; [destruct (truthy _)|]; done. Qed.

Lemma clearIfSet_winLockoutRef r s :
  winLockoutRef (clearIfSet r s) = winLockoutRef s.
Proof. unfold clearIfSet. destruct r; [destruct (truthy _)|]; done. Qed.

(** While the lockout is active the handler does nothing. *)
Lemma handleTapTempo_locked (now : Q) (s : Metronome) :
  truthy (winLockoutRef s) = true → handleTapTempo now s = (None, s).
Proof. intros Hlock. unfold handleTapTempo. by rewrite Hlock. Qed.

(** Otherwise it stores the new window and hands [setTempo] its tempo. *)
Lemma handleTapTempo_unlocked (now : Q) (s : Metronome) :
  truthy (winLockoutRef s) = false →
  fst (handleTapTempo now s) = tapTempo (tapWindow now (tapTimesRef s))
  ∧ tapTimesRef (snd (handleTapTempo now s)) = tapWindow now (tapTimesRef s).
Proof.
  intros Hlock. unfold handleTapTempo. rewrite Hlock.
  cbn [tapTimesRef set_tapTimesRef].
  destruct (tapTempo (tapWindow now (tapTimesRef s))) as [clampedTempo|]; [|done].
  split; [done|]. cbn [snd].
  destruct (isPlaying s), ((550 <=? clampedTempo) && negb (hasWon s));
    cbn -[clearIfSet]; rewrite ?clearIfSet_tapTimesRef; cbn -[clearIfSet];
    rewrite ?clearIfSet_tapTimesRef; done.
Qed.


Lemma round_div_wd (n d d' : Q) : (d == d')%Q → round_div n d = round_div n d'.
Proof.
  intros Hd. unfold round_div, Math_round.
  rewrite (Qeqb_comp d d' Hd 0%Q 0%Q (Qeq_refl 0)).
  destruct (Qeq_bool d' 0); [done|].
  f_equal. apply Qfloor_comp. by rewrite Hd.
Qed.

Lemma clamp_bounds (x : JsInt) : 40 ≤ clamp 40 800 x ≤ 800.
Proof. destruct x; simpl; lia. Qed.


Lemma tapTempo_long (w : list Q) :
  (2 ≤ length w)%nat →
  tapTempo w
  = Some (clamp 40 800 (round_div 60000 (averageInterval (tapIntervals w)))).
Proof.
  intros Hlen. unfold tapTempo.
  by replace (2 <=? length w)%nat with true by (symmetry; apply Nat.leb_le; lia).
Qed.

Lemma Qgtb_true (a b : Q) : Qgtb a b = true ↔ (b < a)%Q.
Proof.
  unfold Qgtb. rewrite negb_true_iff. split.
  - intros H. apply Qnot_le_lt. intros Hle. apply Qle_bool_iff in Hle. congruence.
  - intros H. destruct (Qle_bool a b) eqn:Hle; [|done].
    apply Qle_bool_iff in Hle. exfalso. by apply (Qlt_not_le b a).
Qed.

Lemma Qgtb_false (a b : Q) : Qgtb a b = false ↔ (a <= b)%Q.
Proof.
  unfold Qgtb. rewrite negb_false_iff. apply Qle_bool_iff.
Qed.

(** A gap of more than a second empties the window before the push. *)
Lemma tapWindow_gap (now lastTap : Q) (w : list Q) :
  last w = Some lastTap → (1000 < now - lastTap)%Q → tapWindow now w = [now].
Proof.
  intros Hlast Hgap. unfold tapWindow. rewrite Hlast. simpl default.
  replace (0 <? length w)%nat with true.
  - by rewrite (proj2 (Qgtb_true _ _) Hgap).
  - symmetry. apply Nat.ltb_lt. destruct w; [done | simpl; lia].
Qed.

Lemma tapWindow_close (now lastTap : Q) (w : list Q) :
  last w = Some lastTap → (now - lastTap <= 1000)%Q →
  tapWindow now w
  = if (3 <? length (w ++ [now]))%nat then tail (w ++ [now]) else w ++ [now].
Proof.
  intros Hlast Hclose. unfold tapWindow. rewrite Hlast. simpl default.
  rewrite (proj2 (Qgtb_false _ _) Hclose). by rewrite andb_false_r.
Qed.

Lemma tapWindow_empty (now : Q) : tapWindow now [] = [now].
Proof. reflexivity. Qed.

Lemma half_second_close (t : Q) : (t + 500 - t <= 1000)%Q.
Proof.
  assert (H : (t + 500 - t == 500)%Q) by ring.
  rewrite H. by vm_compute.
Qed.

Lemma second_half_close (t : Q) : (t + 1000 - (t + 500) <= 1000)%Q.
Proof.
  assert (H : (t + 1000 - (t + 500) == 500)%Q) by ring.
  rewrite H. by vm_compute.
Qed.

Lemma tapTempo_two_even (t : Q) : tapTempo [t; t + 500]%Q = Some 120.
Proof.
  rewrite tapTempo_long by (simpl; lia). f_equal.
  rewrite (round_div_wd _ _ 500); [by vm_compute|].
  unfold averageInterval, tapIntervals. simpl. field.
Qed.

Lemma tapTempo_three_even (t : Q) :
  tapTempo [t; t + 500; t + 1000]%Q = Some 120.
Proof.
  rewrite tapTempo_long by (simpl; lia). f_equal.
  rewrite (round_div_wd _ _ 500); [by vm_compute|].
  unfold averageInterval, tapIntervals. simpl. field.
Qed.

(** After one tap the window ends with it and holds at most three taps. *)
Lemma tapWindow_shape (now : Q) (w : list Q) :
  (length w ≤ 3)%nat →
  ∃ pre, tapWindow now w = pre ++ [now] ∧ (length pre ≤ 2)%nat.
Proof.
  intros Hlen. unfold tapWindow.
  destruct ((0 <? length w)%nat && _).
  - simpl. exists []. split; [done | simpl; lia].
  - destruct w as [|a [|b [|c [|d w]]]]; simpl in *; try lia.
    + exists []. split; [done | simpl; lia].
    + exists [a]. split; [done | simpl; lia].
    + exists [a; b]. split; [done | simpl; lia].
    + exists [b; c]. split; [done | simpl; lia].
Qed.

Lemma three_even_taps_window (t : Q) (w : list Q) :
  (length w ≤ 3)%nat →
  tapWindow (t + 1000) (tapWindow (t + 500) (tapWindow t w))
  = [t; t + 500; t + 1000]%Q.
Proof.
  intros Hlen. destruct (tapWindow_shape t w Hlen) as (pre & -> & Hpre).
  rewrite (tapWindow_close (t + 500) t);
    [|by rewrite last_snoc|apply half_second_close].
  destruct pre as [|a [|b [|c pre]]]; simpl in *; try lia.
  - rewrite (tapWindow_close (t + 1000) (t + 500));
      [done|done|apply second_half_close].
  - rewrite (tapWindow_close (t + 1000) (t + 500));
      [done|done|apply second_half_close].
  - rewrite (tapWindow_close (t + 1000) (t + 500));
      [done|done|apply second_half_close].
Qed.


(** C7.  Three taps 500ms apart, at [t], [t + 500] and [t + 1000], each
    registered with the lockout inactive, make the handler set tempo 120
    on the third tap; on a fresh window the first tap sets nothing and
    the second already sets 120. *)
Theorem even_taps_give_120 (t : Q) (s : Metronome) :
  (length (tapTimesRef s) ≤ 3)%nat →
  truthy (winLockoutRef s) = false →
  truthy (winLockoutRef (snd (handleTapTempo t s))) = false →
  truthy (winLockoutRef
            (snd (handleTapTempo (t + 500) (snd (handleTapTempo t s))))) = false →
  third_tap_estimate t (t + 500) (t + 1000) s = Some 120
  ∧ (tapTimesRef s = [] →
     fst (handleTapTempo t s) = None
     ∧ fst (handleTapTempo (t + 500) (snd (handleTapTempo t s))) = Some 120).
Proof.
  intros Hlen H0 H1 H2.
  destruct (handleTapTempo_unlocked t s H0) as (Hr1 & Hw1).
  destruct (handleTapTempo_unlocked (t + 500) _ H1) as (Hr2 & Hw2).
  destruct (handleTapTempo_unlocked (t + 1000) _ H2) as (Hr3 & _).
  split.
  - unfold third_tap_estimate. rewrite Hr3, Hw2, Hw1.
    rewrite three_even_taps_window by done. apply tapTempo_three_even.
  - intros Hfresh. rewrite Hr1, Hr2, Hw1, Hfresh. split; [done|].
    rewrite tapWindow_empty.
    rewrite (tapWindow_close (t + 500) t); [|done|apply half_second_close].
    apply tapTempo_two_even.
Qed.

Lemma even_taps_give_120_witness :
  third_tap_estimate 0 (0 + 500) (0 + 1000) initial = Some 120.
Proof.
  refine (proj1 (even_taps_give_120 0 initial _ _ _ _)).
  - simpl. lia.
  - reflexivity.
  - vm_compute. reflexivity.
  - vm_compute. reflexivity.
Defined.





(** ** The estimator as the specification words it *)

Lemma tapWindow_spec (now : Q) (w : list Q) :
  (length w ≤ 3)%nat → tapWindow now w = spec_window now w.
Proof.
  intros Hlen. unfold spec_window.
  destruct (last w) as [lastTap|] eqn:Hlast.
  - destruct (Qlt_le_dec 1000 (now - lastTap)) as [Hgap|Hclose].
    + by rewrite (tapWindow_gap now lastTap w Hlast Hgap).
    + rewrite (tapWindow_close now lastTap w Hlast Hclose).
      destruct w as [|a [|b [|c [|d w]]]]; simpl in *; done || lia.
  - apply last_None in Hlast. by subst.
Qed.

Lemma tapIntervals_cons (a b : Q) (w : list Q) :
  tapIntervals (a :: b :: w) = (b - a)%Q :: tapIntervals (b :: w).
Proof.
  unfold tapIntervals. cbn [length].
  replace (S (S (length w)) - 1)%nat with (S (length w)) by lia.
  replace (S (length w) - 1)%nat with (length w) by lia.
  cbn [seq fmap list_fmap]. f_equal.
  change (seq 2 (length w)) with (seq (S 1) (length w)).
  rewrite <- fmap_S_seq, <- list_fmap_compose.
  apply list_fmap_ext. intros i k Hk.
  apply lookup_seq in Hk as [-> _]. simpl. by rewrite Nat.sub_0_r.
Qed.

Lemma tapIntervals_spec (w : list Q) : tapIntervals w = spec_intervals w.
Proof.
  unfold spec_intervals. destruct w as [|a w]; [done|].
  revert a. induction w as [|b w IH]; intros a; [done|].
  rewrite tapIntervals_cons, IH. done.
Qed.

Lemma foldl_Qplus (a : Q) (l : list Q) :
  (foldl Qplus a l == a + foldr Qplus 0 l)%Q.
Proof.
  revert a. induction l as [|x l IH]; intros a; simpl.
  - ring.
  - rewrite IH. ring.
Qed.

Lemma averageInterval_spec (l : list Q) :
  (averageInterval l == spec_average l)%Q.
Proof.
  unfold averageInterval, spec_average. rewrite foldl_Qplus.
  by rewrite Qplus_0_l.
Qed.

(** ** The estimate on binary64 numbers *)

Lemma shr_1_nonneg (mrs : shr_record) : 0 ≤ shr_m mrs → 0 ≤ shr_m (shr_1 mrs).
Proof.
  destruct mrs as [m r s]. simpl. intros Hm.
  destruct m as [|[p|p|]|p]; simpl; lia.
Qed.

Lemma iter_shr_1_nonneg (p : positive) (mrs : shr_record) :
  0 ≤ shr_m mrs → 0 ≤ shr_m (SpecFloat.iter_pos shr_1 p mrs).
Proof.
  revert mrs. induction p as [p IH|p IH|]; intros mrs Hm; simpl.
  - by apply IH, IH, shr_1_nonneg.
  - by apply IH, IH.
  - by apply shr_1_nonneg.
Qed.

Lemma shr_fexp_nonneg (m e : Z) (l : location) :
  0 ≤ m → 0 ≤ shr_m (fst (shr_fexp 53 1024 m e l)).
Proof.
  intros Hm. unfold shr_fexp, shr.
  assert (H0 : 0 ≤ shr_m (shr_record_of_loc m l))
    by (by destruct l as [|[| |]]).
  destruct (_ - e) as [|p|p]; simpl; [done| |done].
  by apply iter_shr_1_nonneg.
Qed.

Lemma round_nearest_even_nonneg (m : Z) (l : location) :
  0 ≤ m → 0 ≤ round_nearest_even m l.
Proof.
  intros Hm. unfold round_nearest_even.
  destruct l as [|[| |]]; [done|destruct (Z.even m); lia|done|lia].
Qed.

(** Rounding a non-negative mantissa never gives [NaN]. *)
Lemma binary_round_aux_number (sx : bool) (mx ex : Z) (lx : location) :
  0 ≤ mx → binary_round_aux 53 1024 sx mx ex lx ≠ S754_nan.
Proof.
  intros Hm. unfold binary_round_aux.
  pose proof (shr_fexp_nonneg mx ex lx Hm) as H1.
  destruct (shr_fexp 53 1024 mx ex lx) as [mrs' e']. simpl in H1.
  pose proof (shr_fexp_nonneg
                (round_nearest_even (shr_m mrs') (loc_of_shr_record mrs'))
                e' loc_Exact
                (round_nearest_even_nonneg _ _ H1)) as H2.
  destruct (shr_fexp 53 1024 _ e' loc_Exact) as [mrs'' e'']. simpl in H2.
  destruct (shr_m mrs'') as [|m|m]; [done| |lia].
  by destruct (_ <=? _).
Qed.

Lemma binary_normalize_number (m e : Z) (szero : bool) :
  binary_normalize 53 1024 m e szero ≠ S754_nan.
Proof.
  unfold binary_normalize, binary_round.
  destruct m as [|p|p]; [done| |].
  - destruct (shl_align _ _ _) as [mz ez]. by apply binary_round_aux_number.
  - destruct (shl_align _ _ _) as [mz ez]. by apply binary_round_aux_number.
Qed.

Lemma f64_add_number (x y : f64) :
  x ≠ S754_nan → f64_finite y → f64_add x y ≠ S754_nan.
Proof.
  intros Hx Hy. unfold f64_add, SFadd.
  destruct x as [sx|sx| |sx mx ex], y as [sy|sy| |sy my ey]; try done.
  - by destruct sx, sy.
  - apply binary_normalize_number.
Qed.

Lemma f64_sum_number (acc : f64) (l : list f64) :
  acc ≠ S754_nan → Forall f64_finite l → foldl f64_add acc l ≠ S754_nan.
Proof.
  revert acc. induction l as [|d l IH]; intros acc Hacc Hl; [done|].
  apply Forall_cons in Hl as [Hd Hl]. simpl.
  by apply IH; [apply f64_add_number|].
Qed.

Lemma SFdiv_core_nonneg (mx my : positive) (ex ey : Z) :
  0 ≤ fst (fst (SFdiv_core_binary 53 1024 (Zpos mx) ex (Zpos my) ey)).
Proof.
  unfold SFdiv_core_binary.
  set (s := _ - _ - _).
  set (m' := match s with Z0 => _ | Zpos _ => _ | Zneg _ => _ end).
  assert (Hm' : 0 ≤ m').
  { unfold m'. destruct s; [lia| |lia]. apply Z.shiftl_nonneg. lia. }
  pose proof (Z.div_pos m' (Zpos my) Hm' ltac:(lia)) as Hq.
  unfold Z.div in Hq. by destruct (Z.div_eucl m' (Zpos my)).
Qed.

Lemma f64_div_finite_number (x y : f64) :
  f64_finite x ∨ f64_finite y → x ≠ S754_nan → y ≠ S754_nan →
  (∀ sx sy, x = S754_zero sx → y = S754_zero sy → False) →
  f64_div x y ≠ S754_nan.
Proof.
  intros Hxy Hx Hy Hz. unfold f64_div, SFdiv.
  destruct x as [sx|sx| |sx mx ex], y as [sy|sy| |sy my ey]; try done.
  - by destruct (Hz sx sy).
  - by destruct Hxy.
  - pose proof (SFdiv_core_nonneg mx my ex ey) as Hq.
    destruct (SFdiv_core_binary _ _ _ _ _ _) as [[mz ez] lz].
    by apply binary_round_aux_number.
Qed.

Lemma tapWindow64_length (now : f64) (tapTimes : list f64) :
  (length tapTimes ≤ 3)%nat →
  (1 ≤ length (tapWindow64 now tapTimes) ≤ 3)%nat.
Proof.
  intros Hlen. unfold tapWindow64.
  destruct ((0 <? length tapTimes)%nat && _); [simpl; lia|].
  destruct tapTimes as [|a [|b [|c [|d w]]]]; simpl in *; lia.
Qed.

Lemma tapWindow64_spec (now : f64) (tapTimes : list f64) :
  (length tapTimes ≤ 3)%nat → tapWindow64 now tapTimes = spec_window64 now tapTimes.
Proof.
  intros Hlen. unfold tapWindow64, spec_window64.
  destruct (last tapTimes) as [lastTap|] eqn:Hlast.
  - replace (0 <? length tapTimes)%nat with true
      by (symmetry; apply Nat.ltb_lt; destruct tapTimes; [done | simpl; lia]).
    simpl default. cbn [andb].
    destruct (f64_gtb _ _); [done|].
    destruct tapTimes as [|a [|b [|c [|d w]]]]; simpl in *; done || lia.
  - apply last_None in Hlast. by subst.
Qed.

Lemma tapIntervals64_cons (a b : f64) (w : list f64) :
  tapIntervals64 (a :: b :: w) = f64_sub b a :: tapIntervals64 (b :: w).
Proof.
  unfold tapIntervals64. cbn [length].
  replace (S (S (length w)) - 1)%nat with (S (length w)) by lia.
  replace (S (length w) - 1)%nat with (length w) by lia.
  cbn [seq fmap list_fmap]. f_equal.
  change (seq 2 (length w)) with (seq (S 1) (length w)).
  rewrite <- fmap_S_seq, <- list_fmap_compose.
  apply list_fmap_ext. intros i k Hk.
  apply lookup_seq in Hk as [-> _]. simpl. by rewrite Nat.sub_0_r.
Qed.

(** The loop of line 550 collects the gaps between neighbours. *)
Lemma tapIntervals64_spec (w : list f64) : tapIntervals64 w = spec_gaps64 w.
Proof.
  unfold spec_gaps64. destruct w as [|a w]; [done|].
  revert a. induction w as [|b w IH]; intros a; [done|].
  rewrite tapIntervals64_cons, IH. done.
Qed.

Lemma tapTempo64_short (w : list f64) :
  (length w < 2)%nat → tapTempo64 w = None.
Proof.
  intros Hlen. unfold tapTempo64.
  by replace (2 <=? length w)%nat with false by (symmetry; apply Nat.leb_gt; lia).
Qed.

Lemma tapTempo64_long (w : list f64) :
  (2 ≤ length w)%nat →
  tapTempo64 w
  = Some (Math_min
            (Math_max
               (Math_round64
                  (f64_div (f64_of_Z 60000) (spec_average64 (spec_gaps64 w))))
               40)
            800).
Proof.
  intros Hlen. unfold tapTempo64.
  replace (2 <=? length w)%nat with true by (symmetry; apply Nat.leb_le; lia).
  by rewrite tapIntervals64_spec.
Qed.

Lemma Math_round_rounds (x : Q) : rounds_to x (Math_round x).
Proof.
  unfold rounds_to, Math_round.
  pose proof (Qfloor_le (x + (1 # 2))) as Hlo.
  pose proof (Qlt_floor (x + (1 # 2))) as Hhi.
  rewrite inject_Z_plus in Hhi.
  set (r := inject_Z (Qfloor (x + (1 # 2)))) in *.
  change (inject_Z 1) with 1%Q in Hhi.
  split.
  - apply (Qplus_le_l _ _ (1 # 2)). ring_simplify. by ring_simplify in Hlo.
  - apply (Qplus_lt_l _ _ (1 # 2)).
    assert (H : (r + (1 # 2) + (1 # 2) == r + 1)%Q) by ring.
    by rewrite H.
Qed.

(** Rounding and clamping a quotient that is a number. *)
Lemma clamp_estimate (quotient : f64) :
  quotient ≠ S754_nan →
  ∃ bpm, Math_min (Math_max (Math_round64 quotient) 40) 800 = Num bpm
         ∧ 40 ≤ bpm ≤ 800 ∧ estimate_of quotient bpm.
Proof.
  intros Hq.
  assert (Hfin : ∀ x,
    ∃ bpm, Math_min (Math_max (Num (Math_round x)) 40) 800 = Num bpm
           ∧ 40 ≤ bpm ≤ 800
           ∧ ∃ r, rounds_to x r ∧ clamps_to 40 800 r bpm).
  { intros x. exists (Z.min (Z.max (Math_round x) 40) 800).
    split; [done|]. split; [lia|]. exists (Math_round x).
    split; [apply Math_round_rounds|]. unfold clamps_to. lia. }
  destruct quotient as [s|s| |s m e]; [apply Hfin| |done|apply Hfin].
  destruct s; simpl.
  - exists 40. repeat split; lia.
  - exists 800. repeat split; lia.
Qed.

Lemma count_finite (n : nat) :
  (1 ≤ n ≤ 2)%nat →
  f64_finite (f64_of_Z (Z.of_nat n))
  ∧ ∀ s, f64_of_Z (Z.of_nat n) ≠ S754_zero s.
Proof.
  intros Hn. destruct n as [|[|[|n]]]; [lia| | |lia]; by vm_compute.
Qed.

(** With finite gaps and at most three taps the quotient is a number. *)
Lemma quotient_number (w : list f64) :
  (2 ≤ length w ≤ 3)%nat → Forall f64_finite (spec_gaps64 w) →
  f64_div (f64_of_Z 60000) (spec_average64 (spec_gaps64 w)) ≠ S754_nan.
Proof.
  intros Hlen Hgaps.
  assert (Hcount : (1 ≤ length (spec_gaps64 w) ≤ 2)%nat).
  { destruct w as [|a [|b [|c [|d w]]]]; simpl in *; lia. }
  destruct (count_finite _ Hcount) as [Hfin Hnz].
  assert (Hnum : ∀ x, f64_finite x → x ≠ S754_nan) by (by intros []).
  assert (Havg : spec_average64 (spec_gaps64 w) ≠ S754_nan).
  { unfold spec_average64. apply f64_div_finite_number.
    - by right.
    - by apply f64_sum_number.
    - by apply Hnum.
    - intros sx sy _ Hy. by apply (Hnz sy). }
  apply f64_div_finite_number; [by left|by vm_compute|done|].
  intros sx sy Hx _. by vm_compute in Hx.
Qed.

(** C9.  A tap leaves the window the specification describes and
    returns nothing while that window holds fewer than two taps.
    Otherwise it returns a tempo between 40 and 800: the quotient of 60000
    by the average gap between consecutive taps, both divisions and the
    sum being those of binary64 numbers, rounded to the nearest integer
    and clamped.  What is returned depends on the taps in the window
    alone. *)
Theorem tap_estimate_is_rounded_quotient (now : f64) (tapTimes : list f64) :
  (length tapTimes ≤ 3)%nat →
  Forall f64_finite (spec_gaps64 (snd (registerTap64 now tapTimes))) →
  let window := snd (registerTap64 now tapTimes) in
  let quotient :=
    f64_div (f64_of_Z 60000) (spec_average64 (spec_gaps64 window)) in
  window = spec_window64 now tapTimes
  ∧ ((length window < 2)%nat → fst (registerTap64 now tapTimes) = None)
  ∧ ((2 ≤ length window)%nat →
     ∃ bpm, fst (registerTap64 now tapTimes) = Some (Num bpm)
            ∧ 40 ≤ bpm ≤ 800 ∧ estimate_of quotient bpm)
  ∧ (∀ now' tapTimes', snd (registerTap64 now' tapTimes') = window →
       fst (registerTap64 now' tapTimes') = fst (registerTap64 now tapTimes)).
Proof.
  intros Hlen Hgaps. cbv zeta. unfold registerTap64 in *. cbn [fst snd] in *.
  pose proof (tapWindow64_length now tapTimes Hlen) as Hw.
  split; [by apply tapWindow64_spec|].
  split; [apply tapTempo64_short|]. split.
  - intros Hlong. rewrite tapTempo64_long by done.
    destruct (clamp_estimate
                (f64_div (f64_of_Z 60000)
                   (spec_average64 (spec_gaps64 (tapWindow64 now tapTimes)))))
      as (bpm & Hbpm & Hrange & Hest).
    + apply quotient_number; [lia | done].
    + exists bpm. by rewrite Hbpm.
  - intros now' tapTimes' Hsame. by rewrite Hsame.
Qed.

Lemma tap_estimate_is_rounded_quotient_witness :
  fst (registerTap64 (tenths 11052) [tenths 4652; tenths 8885])
  = Some (Num 188).
Proof.
  destruct (tap_estimate_is_rounded_quotient
              (tenths 11052) [tenths 4652; tenths 8885])
    as (_ & _ & Hlong & _).
  - simpl. lia.
  - vm_compute. repeat constructor.
  - destruct Hlong as (bpm & Hbpm & _); [vm_compute; lia|].
    rewrite Hbpm. vm_compute in Hbpm. exact (eq_sym Hbpm).
Defined.

(** Three taps whose gaps are the double 500 give 120 on doubles too, and
    so do two. *)
Lemma even_taps_on_doubles (a b c : f64) :
  f64_sub b a = f64_of_Z 500 → f64_sub c b = f64_of_Z 500 →
  tapTempo64 [a; b; c] = Some (Num 120) ∧ tapTempo64 [a; b] = Some (Num 120).
Proof.
  intros Hab Hbc. rewrite !tapTempo64_long by (simpl; lia).
  unfold spec_gaps64. cbn [tail zip_with]. rewrite Hab, Hbc.
  split; vm_compute; reflexivity.
Qed.

(** The middle tap matters on doubles: these two windows share their
    oldest tap, their newest tap and their size. *)
Lemma middle_tap_matters :
  tapTempo64 [tenths 1952; tenths 3533; tenths 8352] = Some (Num 188)
  ∧ tapTempo64 [tenths 1952; tenths 8326; tenths 8352] = Some (Num 187).
Proof. split; vm_compute; reflexivity. Qed.


(** * Further properties *)

(** ** The tap window across events *)

Ltac through_clear lem :=
  repeat (cbn -[clearIfSet]; rewrite ?lem); try done.

Lemma startMetronome_tapTimesRef (count : nat) (s : Metronome) :
  tapTimesRef (startMetronome count s) = tapTimesRef s.
Proof. unfold startMetronome. through_clear clearIfSet_tapTimesRef. Qed.

Lemma commit_tapTimesRef (before s : Metronome) :
  tapTimesRef (commit before s) = tapTimesRef s.
Proof.
  unfold commit. destruct (decide _); destruct (eqb _ _); try done;
    destruct (isPlaying _); through_clear clearIfSet_tapTimesRef.
Qed.

(** Only a tap changes the stored taps. *)
Lemma handle_tapTimesRef (ev : Event) (s : Metronome) :
  (∀ now, ev ≠ Tap now) → tapTimesRef (handle ev s) = tapTimesRef s.
Proof.
  intros Hev. destruct ev as [| | |e|now| | |h|h|]; simpl; try done.
  - unfold startStop. destruct (isPlaying s).
    + through_clear clearIfSet_tapTimesRef.
    + cbn -[startMetronome]. destruct (isFirstClickRef s); [done|].
      by rewrite startMetronome_tapTimesRef.
  - unfold onTempoCommit. destruct (isPlaying s); [|done].
    by rewrite startMetronome_tapTimesRef.
  - unfold onSignatureChange. destruct (isPlaying s); [|done].
    through_clear clearIfSet_tapTimesRef.
  - by destruct (Hev now).
  - unfold runTimeout. destruct (timeouts s !! h) as [[count|]|]; [|done|done].
    by rewrite startMetronome_tapTimesRef.
  - unfold runInterval. by destruct (intervals s !! h).
Qed.

Lemma tapWindow_length (now : Q) (w : list Q) :
  (length w ≤ 3)%nat →
  (1 ≤ length (tapWindow now w) ≤ 3)%nat.
Proof.
  intros Hlen. destruct (tapWindow_shape now w Hlen) as (pre & -> & Hpre).
  rewrite length_app. simpl. lia.
Qed.

Lemma step_tap_window_bounded (s : Metronome) (ev : Event) :
  (length (tapTimesRef s) ≤ 3)%nat → (length (tapTimesRef (step s ev)) ≤ 3)%nat.
Proof.
  intros Hlen. unfold step. rewrite commit_tapTimesRef.
  destruct ev as [| | |e|now| | |h|h|];
    try (rewrite handle_tapTimesRef; [done | by intros ?]).
  simpl. destruct (truthy (winLockoutRef s)) eqn:Hlock.
  - by rewrite handleTapTempo_locked.
  - destruct (handleTapTempo_unlocked now s Hlock) as (_ & ->).
    by apply tapWindow_length.
Qed.

(** X1.  However many taps arrive and whatever else happens between
    them, the stored window never holds more than three taps. *)
Theorem tap_window_bounded (evs : list Event) :
  (length (tapTimesRef (run evs initial)) ≤ 3)%nat.
Proof.
  induction evs as [|ev evs IH] using rev_ind; [simpl; lia|].
  rewrite run_snoc. by apply step_tap_window_bounded.
Qed.


(** ** What the tempo of a window depends on *)

Lemma tapIntervals_length (w : list Q) :
  length (tapIntervals w) = (length w - 1)%nat.
Proof. unfold tapIntervals. by rewrite length_fmap, length_seq. Qed.

(** The intervals telescope: their sum is the newest tap minus the oldest. *)
Lemma intervals_telescope (a : Q) (w : list Q) :
  (foldr Qplus 0 (tapIntervals (a :: w)) == default a (last (a :: w)) - a)%Q.
Proof.
  revert a. induction w as [|b w IH]; intros a.
  - simpl. ring.
  - rewrite tapIntervals_cons. simpl foldr. rewrite IH.
    rewrite (last_cons_cons a b w).
    destruct (last (b :: w)) as [l|] eqn:Hl; simpl; [ring|].
    by apply last_None in Hl.
Qed.

Lemma averageInterval_span (first lastTap : Q) (w : list Q) :
  head w = Some first → last w = Some lastTap →
  (averageInterval (tapIntervals w)
   == (lastTap - first) / inject_Z (Z.of_nat (length w - 1)))%Q.
Proof.
  intros Hhead Hlast. destruct w as [|a w]; [done|].
  simpl in Hhead. injection Hhead as ->.
  rewrite averageInterval_spec. unfold spec_average.
  rewrite intervals_telescope, Hlast, tapIntervals_length. simpl default.
  reflexivity.
Qed.


(** ** Taps in clock order *)










(** ** The accent effect on its own *)

Lemma js_set_in_range (i : nat) (v : bool) (a : list bool) :
  (i < length a)%nat → js_set i v a = <[i := v]> a.
Proof.
  intros Hlt. unfold js_set.
  by replace (i <? length a)%nat with true by (symmetry; apply Nat.ltb_lt; lia).
Qed.

Lemma js_get_lookup (a : list bool) (i : nat) (v : bool) :
  a !! i = Some v → js_get a i = v.
Proof. intros H. unfold js_get. by rewrite H. Qed.

(** The copy loop, run for the first [m] indices. *)
Lemma copy_loop (prev acc : list bool) (m : nat) :
  (m ≤ length prev)%nat → (m ≤ length acc)%nat →
  foldl (λ acc i, js_set i (js_get prev i) acc) acc (seq 0 m)
  = take m prev ++ drop m acc.
Proof.
  induction m as [|m IH]; intros Hprev Hacc.
  - by rewrite drop_0.
  - rewrite seq_S, foldl_app, IH by lia. simpl foldl.
    destruct (lookup_lt_is_Some_2 prev m) as [v Hv]; [lia|].
    rewrite (js_get_lookup _ _ _ Hv).
    rewrite js_set_in_range
      by (rewrite length_app, length_take, length_drop; lia).
    rewrite insert_app_r_alt by (rewrite length_take; lia).
    rewrite length_take, Nat.min_l by lia. rewrite Nat.sub_diag.
    rewrite (take_S_r prev m v Hv), <- app_assoc. f_equal.
    destruct (drop m acc) as [|x rest] eqn:Hdrop.
    + apply (f_equal length) in Hdrop. rewrite length_drop in Hdrop.
      simpl in Hdrop. lia.
    + simpl. f_equal.
      assert (Hrest : drop 1 (drop m acc) = rest) by (by rewrite Hdrop).
      rewrite drop_drop in Hrest. by rewrite Nat.add_1_r in Hrest.
Qed.

(** X4.  On its own the effect on [timeSignature.beats] carries the old
    pattern over: entries at shared indices are copied, including index
    0, further entries are [false], and the length is the beat count.
    The first beat is accented by default only when there was no old
    pattern at all. *)
Theorem accent_effect_carries_over (count : nat) (prev : list bool) :
  (0 < count)%nat →
  accentEffect count prev
  = match prev with
    | [] => true :: replicate (count - 1) false
    | _ => take count prev ++ replicate (count - length prev) false
    end.
Proof.
  intros Hcount. unfold accentEffect.
  assert (Hfresh : js_set 0 true (replicate count false)
                   = true :: replicate (count - 1) false).
  { rewrite js_set_in_range by (rewrite length_replicate; lia).
    destruct count; [lia|]. simpl. by rewrite Nat.sub_0_r. }
  rewrite Hfresh, copy_loop; [|lia|simpl; rewrite length_replicate; lia].
  destruct prev as [|p prev]; [by rewrite Nat.min_0_l|].
  set (old := p :: prev).
  assert (Hold : (1 ≤ length old)%nat) by (simpl; lia).
  destruct (Nat.min_spec (length old) count) as [[Hlt ->]|[Hle ->]].
  - rewrite firstn_all, (take_ge old count) by lia.
    f_equal. destruct (length old) as [|n] eqn:Hn; [lia|].
    simpl drop. rewrite drop_replicate. f_equal. lia.
  - f_equal. destruct count as [|c]; [lia|].
    simpl drop. rewrite drop_replicate. f_equal. lia.
Qed.

Lemma accent_effect_carries_over_witness :
  accentEffect 3 [false; true; true; true] = [false; true; true]
  ∧ accentEffect 5 [false; true] = [false; true; false; false; false].
Proof.
  split.
  - rewrite (accent_effect_carries_over 3 [false; true; true; true]) by lia.
    reflexivity.
  - rewrite (accent_effect_carries_over 5 [false; true]) by lia.
    reflexivity.
Defined.

(** ** Toggling an accent *)

(** X5.  Clicking the dot of a beat flips that beat's accent and no
    other; clicking it again restores the pattern. *)
Theorem toggle_accent_flips_one (i : nat) (s : Metronome) :
  (i < length (accentBeats s))%nat →
  accentBeats (toggleAccent i s)
  = <[i := negb (js_get (accentBeats s) i)]> (accentBeats s)
  ∧ accentBeats (toggleAccent i (toggleAccent i s)) = accentBeats s.
Proof.
  intros Hlt. unfold toggleAccent. cbn [accentBeats set_accentBeats].
  rewrite js_set_in_range by done. split; [done|].
  rewrite js_set_in_range by (by rewrite length_insert).
  destruct (lookup_lt_is_Some_2 (accentBeats s) i Hlt) as [v Hv].
  rewrite (js_get_lookup _ _ _ Hv).
  rewrite (js_get_lookup _ _ (negb v)) by (by apply list_lookup_insert_eq).
  rewrite list_insert_insert_eq, negb_involutive. by apply list_insert_id.
Qed.

Lemma toggle_accent_flips_one_witness :
  accentBeats (toggleAccent 2 initial) = [true; false; true; false].
Proof.
  rewrite (proj1 (toggle_accent_flips_one 2 initial ltac:(simpl; lia))).
  reflexivity.
Defined.


(** ** What each handler leaves alone *)

Lemma clearIfSet_isFirstClickRef r s :
  isFirstClickRef (clearIfSet r s) = isFirstClickRef s.
Proof. unfold clearIfSet. destruct r; [destruct (truthy _)|]; done. Qed.

Lemma clearIfSet_tapTimeoutRef r s :
  tapTimeoutRef (clearIfSet r s) = tapTimeoutRef s.
Proof. unfold clearIfSet. destruct r; [destruct (truthy _)|]; done. Qed.

Lemma clearIfSet_currentBeat r s : currentBeat (clearIfSet r s) = currentBeat s.
Proof. unfold clearIfSet. destruct r; [destruct (truthy _)|]; done. Qed.

Ltac through_clears :=
  repeat (cbn -[clearIfSet];
          rewrite ?clearIfSet_timeSignature, ?clearIfSet_accentBeats,
            ?clearIfSet_isFirstClickRef, ?clearIfSet_audioContextRef,
            ?clearIfSet_isPlaying, ?clearIfSet_tapTimeoutRef,
            ?clearIfSet_tapTimesRef, ?clearIfSet_accentBeatsRef,
            ?clearIfSet_volumeRef, ?clearIfSet_nextBeatRef,
            ?clearIfSet_timerRef, ?clearIfSet_nextHandle,
            ?clearIfSet_winLockoutRef, ?clearIfSet_log,
            ?clearIfSet_currentBeat);
  try done.

(** The cells [startMetronome] does not write. *)
Lemma startMetronome_frame (count : nat) (s : Metronome) :
  let s' := startMetronome count s in
  timeSignature s' = timeSignature s ∧ accentBeats s' = accentBeats s
  ∧ isFirstClickRef s' = isFirstClickRef s
  ∧ audioContextRef s' = audioContextRef s
  ∧ isPlaying s' = isPlaying s ∧ tapTimeoutRef s' = tapTimeoutRef s
  ∧ accentBeatsRef s' = accentBeatsRef s ∧ volumeRef s' = volumeRef s.
Proof. cbv zeta. unfold startMetronome. repeat split; through_clears. Qed.

(** The cells the tap handler does not write. *)
Lemma handleTapTempo_keeps (now : Q) (s : Metronome) :
  let s' := snd (handleTapTempo now s) in
  timeSignature s' = timeSignature s ∧ accentBeats s' = accentBeats s
  ∧ isFirstClickRef s' = isFirstClickRef s
  ∧ audioContextRef s' = audioContextRef s
  ∧ isPlaying s' = isPlaying s.
Proof.
  cbv zeta. unfold handleTapTempo.
  destruct (truthy (winLockoutRef s)); [done|].
  destruct (tapTempo _) as [clampedTempo|]; [|done]. cbn [snd].
  destruct (isPlaying s) eqn:Hplay,
    ((550 <=? clampedTempo) && negb (hasWon s));
    repeat split; through_clears.
Qed.

Lemma handle_keeps (ev : Event) (s : Metronome) :
  (∀ e, ev ≠ SelectSignature e) →
  timeSignature (handle ev s) = timeSignature s
  ∧ ((∀ i, ev ≠ ToggleAccent i) → accentBeats (handle ev s) = accentBeats s).
Proof.
  intros Hsel.
  destruct ev as [| | |e|now|i| |h|h|]; simpl; try done.
  - unfold startStop. destruct (isPlaying s).
    + split; [|intros _]; through_clears.
    + cbn -[startMetronome]. destruct (isFirstClickRef s); [done|].
      destruct (startMetronome_frame (beats (timeSignature s))
        (set_nextBeatRef 0%nat
           (setCurrentBeat 0 (set_isPlaying true (ensureAudioContext s)))))
        as (Hts & Hab & _).
      split; [exact Hts | intros _; exact Hab].
  - unfold onTempoCommit. destruct (isPlaying s); [|done].
    destruct (startMetronome_frame (beats (timeSignature s)) s) as (Hts & Hab & _).
    split; [exact Hts | intros _; exact Hab].
  - by destruct (Hsel e).
  - destruct (handleTapTempo_keeps now s) as (Hts & Hab & _).
    split; [exact Hts | intros _; exact Hab].
  - split; [done|]. intros Hi. by destruct (Hi i).
  - unfold runTimeout. destruct (timeouts s !! h) as [[count|]|]; [|done|done].
    destruct (startMetronome_frame count (set_timeouts (delete h (timeouts s)) s))
      as (Hts & Hab & _).
    split; [exact Hts | intros _; exact Hab].
  - unfold runInterval. by destruct (intervals s !! h).
Qed.

(** ** One accent flag per beat *)

Lemma toggleAccent_length (i : nat) (s : Metronome) :
  (i < length (accentBeats s))%nat →
  length (accentBeats (toggleAccent i s)) = length (accentBeats s).
Proof.
  intros Hlt. unfold toggleAccent. cbn [accentBeats set_accentBeats].
  by rewrite js_set_in_range, length_insert.
Qed.

Lemma step_accents_aligned (s : Metronome) (ev : Event) :
  event_ok s ev →
  length (accentBeats s) = beats (timeSignature s) →
  length (accentBeats (step s ev)) = beats (timeSignature (step s ev)).
Proof.
  intros Hok Hlen. unfold step.
  rewrite commit_accentBeats, commit_timeSignature.
  assert (Hother : (∀ e, ev ≠ SelectSignature e) → (∀ i, ev ≠ ToggleAccent i) →
    length (if decide (beats (timeSignature s)
                       = beats (timeSignature (handle ev s)))
            then accentBeats (handle ev s)
            else accentEffect (beats (timeSignature (handle ev s)))
                   (accentBeats (handle ev s)))
    = beats (timeSignature (handle ev s))).
  { intros Hsel Htog. destruct (handle_keeps ev s Hsel) as (Hts & Hab).
    rewrite Hts, Hab by done. destruct (decide _); [exact Hlen | congruence]. }
  destruct ev as [| | |e|now|i| |h|h|]; try (by apply Hother; intros ?).
  - clear Hother. simpl handle. simpl in Hok.
    destruct (handlerAccents_table e Hok) as (Hh & Heff & Hl).
    rewrite onSignatureChange_accentBeats, onSignatureChange_timeSignature, Hh.
    destruct (decide _); [done|]. by rewrite Heff.
  - clear Hother.
    destruct (handle_keeps (ToggleAccent i) s ltac:(by intros ?)) as (Hts & _).
    rewrite Hts. destruct (decide _); [|congruence]. simpl handle. simpl in Hok.
    rewrite toggleAccent_length; [done | by rewrite Hlen].
Qed.

Lemma run_accents_aligned (evs : list Event) (s : Metronome) :
  run_ok evs s →
  length (accentBeats s) = beats (timeSignature s) →
  length (accentBeats (run evs s)) = beats (timeSignature (run evs s)).
Proof.
  revert s. induction evs as [|ev evs IH]; intros s Hok Hlen; [done|].
  destruct Hok as [Hev Hrest]. simpl.
  apply IH; [done|]. by apply step_accents_aligned.
Qed.

(** X6.  Through every sequence of events the controls can produce, the
    accent pattern and its mirror hold exactly one flag per beat of the
    current time signature. *)
Theorem one_accent_per_beat (evs : list Event) :
  run_ok evs initial →
  length (accentBeats (run evs initial)) = beats (timeSignature (run evs initial))
  ∧ accentBeatsRef (run evs initial) = accentBeats (run evs initial).
Proof.
  intros Hok. split.
  - by apply run_accents_aligned.
  - apply mirrored_run.
Qed.

Lemma one_accent_per_beat_witness :
  length (accentBeats (run [SelectSignature threeFour; ToggleAccent 2] initial))
  = 3%nat.
Proof.
  assert (Hok : run_ok [SelectSignature threeFour; ToggleAccent 2] initial).
  { split; [|split; [|done]].
    - unfold event_ok, TIME_SIGNATURES, threeFour.
      do 2 apply list_elem_of_further. apply list_elem_of_here.
    - vm_compute. lia. }
  rewrite (proj1 (one_accent_per_beat _ Hok)). vm_compute. reflexivity.
Defined.


(** ** Handles never collide *)

Lemma separated_frame (s s' : Metronome) :
  intervals s' = intervals s → timeouts s' = timeouts s →
  timerRef s' = timerRef s → tapTimeoutRef s' = tapTimeoutRef s →
  nextHandle s' = nextHandle s → separated s → separated s'.
Proof.
  intros Hi Ht Hr Hp Hn [Ha Hb Hc].
  split; rewrite ?Hi, ?Ht, ?Hr, ?Hp, ?Hn; done.
Qed.

Lemma separated_clearTimer (h : Z) (s : Metronome) :
  separated s → separated (clearTimer h s).
Proof.
  intros [Ha Hb Hc]. split; simpl.
  - intros k t Hk. apply lookup_delete_Some in Hk as [_ Hk]. by apply (Ha k t).
  - done.
  - intros k Hk. destruct (Hc k Hk) as [Hlt Hnone]. split; [done|].
    destruct (decide (h = k)) as [->|Hne].
    + by rewrite lookup_delete_eq.
    + by rewrite lookup_delete_ne.
Qed.

Lemma separated_clearIfSet (r : option Z) (s : Metronome) :
  separated s → separated (clearIfSet r s).
Proof.
  intros Hs. unfold clearIfSet. destruct r as [h|]; [|done].
  destruct (truthy (Some h)); [by apply separated_clearTimer | done].
Qed.

Lemma separated_setTimeout (t : TimeoutTask) (s : Metronome) :
  separated s → separated (snd (setTimeout t s)).
Proof.
  intros [Ha Hb Hc]. split; simpl.
  - intros k t' Hk. apply lookup_insert_Some in Hk as [[<- _]|[_ Hk]].
    + split; [lia|]. intros Hr. apply Hb in Hr. lia.
    + destruct (Ha k t' Hk). split; [lia | done].
  - intros k Hk. apply Hb in Hk. lia.
  - intros k Hk. destruct (Hc k Hk). split; [lia | done].
Qed.

Lemma separated_tap_timeout (t : TimeoutTask) (s : Metronome) :
  owned s → separated s →
  separated (set_tapTimeoutRef (Some (nextHandle s)) (snd (setTimeout t s))).
Proof.
  intros Hown Hs. destruct (separated_setTimeout t s Hs) as [Ha Hb Hc].
  split; [exact Ha | exact Hb |]. simpl. intros k Hk. injection Hk as <-.
  split; [lia|].
  destruct (intervals s !! nextHandle s) as [t'|] eqn:Hlive; [|done].
  destruct (live_is_ref s Hown _ _ Hlive) as [Hr _].
  apply (timerRef_issued s Hs) in Hr. lia.
Qed.

Lemma separated_arm (t : IntervalTimer) (s : Metronome) :
  separated s →
  separated (set_timerRef (Some (nextHandle s)) (snd (setInterval t s))).
Proof.
  intros [Ha Hb Hc]. split; simpl.
  - intros k t' Hk. destruct (Ha k t' Hk) as [Hlt _].
    split; [lia|]. intros Heq. injection Heq as Heq. lia.
  - intros k Hk. injection Hk as <-. lia.
  - intros k Hk. destruct (Hc k Hk) as [Hlt Hnone]. split; [lia|].
    rewrite lookup_insert_ne by lia. done.
Qed.

Lemma separated_startMetronome (count : nat) (s : Metronome) :
  separated s → separated (startMetronome count s).
Proof.
  intros Hs. unfold startMetronome.
  set (s1 := clearIfSet (timerRef s) s).
  assert (Hs1 : separated s1) by (by apply separated_clearIfSet).
  assert (Hs2 : separated (fireBeat count s1))
    by (by eapply separated_frame; [..|exact Hs1]).
  exact (separated_arm _ _ Hs2).
Qed.

Lemma separated_startStop (s : Metronome) : separated s → separated (startStop s).
Proof.
  intros Hs. unfold startStop. destruct (isPlaying s).
  - eapply separated_frame;
      [..|apply (separated_clearIfSet (timerRef s) (ensureAudioContext s))];
      try done.
    by eapply separated_frame; [..|exact Hs].
  - cbn -[startMetronome]. destruct (isFirstClickRef s).
    + eapply separated_frame;
        [..|apply (separated_setTimeout
                     (RunStartMetronome (beats (timeSignature s)))), Hs]; done.
    + apply separated_startMetronome. by eapply separated_frame; [..|exact Hs].
Qed.

Lemma separated_onSignatureChange (e : SignatureEntry) (s : Metronome) :
  separated s → separated (onSignatureChange e s).
Proof.
  intros Hs. unfold onSignatureChange. destruct (isPlaying s).
  - set (s2 := set_accentBeats _ _).
    assert (Hs2 : separated s2) by (by eapply separated_frame; [..|exact Hs]).
    set (s5 := setCurrentBeat 0
                 (set_nextBeatRef 0%nat (clearIfSet (timerRef s2) s2))).
    assert (Hs5 : separated s5).
    { eapply separated_frame;
        [..|apply (separated_clearIfSet (timerRef s2)), Hs2]; done. }
    exact (separated_arm _ _ Hs5).
  - by eapply separated_frame; [..|exact Hs].
Qed.

Lemma separated_handleTapTempo (now : Q) (s : Metronome) :
  owned s → separated s → separated (snd (handleTapTempo now s)).
Proof.
  intros Hown Hsep. unfold handleTapTempo.
  destruct (truthy (winLockoutRef s)); [done|].
  set (s1 := set_tapTimesRef _ s).
  assert (Hown1 : owned s1) by (by eapply owned_frame; [..|exact Hown]).
  assert (Hsep1 : separated s1) by (by eapply separated_frame; [..|exact Hsep]).
  destruct (tapTempo (tapTimesRef s1)) as [clampedTempo|]; [|done].
  simpl snd.
  set (s3 := if _ && _ then _ else _).
  assert (H3 : owned s3 ∧ separated s3).
  { unfold s3. destruct (_ && _).
    - split.
      + eapply owned_frame;
          [..|apply (owned_setTimeout ExpireWinLockout), owned_clearIfSet];
          try done.
        by eapply owned_frame; [..|exact Hown1].
      + eapply separated_frame;
          [..|apply (separated_setTimeout ExpireWinLockout),
               separated_clearIfSet]; try done.
        by eapply separated_frame; [..|exact Hsep1].
    - split.
      + by eapply owned_frame; [..|exact Hown1].
      + by eapply separated_frame; [..|exact Hsep1]. }
  destruct H3 as [Hown3 Hsep3].
  destruct (isPlaying s); [|exact Hsep3].
  set (s4 := clearIfSet (tapTimeoutRef s3) s3).
  assert (Hown4 : owned s4) by (by apply owned_clearIfSet).
  assert (Hsep4 : separated s4) by (by apply separated_clearIfSet).
  exact (separated_tap_timeout _ s4 Hown4 Hsep4).
Qed.

Lemma separated_runTimeout (h : Z) (s : Metronome) :
  separated s → separated (runTimeout h s).
Proof.
  intros Hs. unfold runTimeout.
  destruct (timeouts s !! h) as [task|] eqn:Hh; [|done].
  assert (Hs1 : separated (set_timeouts (delete h (timeouts s)) s)).
  { destruct Hs as [Ha Hb Hc]. split; simpl; [|done|done].
    intros k t Hk. apply lookup_delete_Some in Hk as [_ Hk]. by apply (Ha k t). }
  destruct task as [count|].
  - by apply separated_startMetronome.
  - by eapply separated_frame; [..|exact Hs1].
Qed.

Lemma separated_handle (ev : Event) (s : Metronome) :
  owned s → separated s → separated (handle ev s).
Proof.
  intros Hown Hs. destruct ev; simpl.
  - by apply separated_startStop.
  - by eapply separated_frame; [..|exact Hs].
  - unfold onTempoCommit.
    destruct (isPlaying s); [by apply separated_startMetronome | done].
  - by apply separated_onSignatureChange.
  - by apply separated_handleTapTempo.
  - by eapply separated_frame; [..|exact Hs].
  - by eapply separated_frame; [..|exact Hs].
  - by apply separated_runTimeout.
  - unfold runInterval. destruct (intervals s !! h); [|done].
    by eapply separated_frame; [..|exact Hs].
  - by eapply separated_frame; [..|exact Hs].
Qed.

Lemma separated_commit (before s : Metronome) :
  separated s → separated (commit before s).
Proof.
  intros Hs. unfold commit.
  set (s1 := if decide _ then _ else _).
  assert (Hs1 : separated s1).
  { unfold s1. destruct (decide _); [done|].
    by eapply separated_frame; [..|exact Hs]. }
  set (s2 := mirrorRefs s1).
  assert (Hs2 : separated s2) by (by eapply separated_frame; [..|exact Hs1]).
  destruct (eqb _ _); [done|]. destruct (isPlaying s2); [done|].
  by apply separated_clearIfSet.
Qed.

Lemma separated_initial : separated initial.
Proof. split; simpl; intros; simplify_map_eq. Qed.

Lemma separated_run (evs : list Event) (s : Metronome) :
  owned s → separated s → separated (run evs s).
Proof.
  revert s. induction evs as [|ev evs IH]; intros s Hown Hs; [done|].
  simpl. apply IH.
  - by apply owned_step.
  - by apply separated_commit, separated_handle.
Qed.


(** ** Transport *)

(** The cells no effect writes. *)
Lemma commit_keeps (before s : Metronome) :
  let s' := commit before s in
  isPlaying s' = isPlaying s ∧ nextBeatRef s' = nextBeatRef s
  ∧ currentBeat s' = currentBeat s ∧ log s' = log s
  ∧ audioContextRef s' = audioContextRef s
  ∧ isFirstClickRef s' = isFirstClickRef s
  ∧ timerRef s' = timerRef s ∧ nextHandle s' = nextHandle s
  ∧ tapTimeoutRef s' = tapTimeoutRef s.
Proof.
  cbv zeta. unfold commit.
  destruct (decide _); destruct (eqb _ _); try (repeat split; done);
    destruct (isPlaying (mirrorRefs _)) eqn:Hp; try (repeat split; done);
    repeat split; through_clears.
Qed.

Lemma clearIfSet_intervals_empty (r : option Z) (s : Metronome) :
  intervals s = ∅ → intervals (clearIfSet r s) = ∅.
Proof.
  intros Hempty. unfold clearIfSet. destruct r as [h|]; [|done].
  destruct (truthy (Some h)); [|done]. simpl. rewrite Hempty.
  apply delete_empty.
Qed.

Lemma commit_intervals_empty (before s : Metronome) :
  intervals s = ∅ → intervals (commit before s) = ∅.
Proof.
  intros Hempty. unfold commit.
  set (s1 := if decide _ then _ else _).
  assert (H1 : intervals (mirrorRefs s1) = ∅).
  { unfold s1. by destruct (decide _). }
  destruct (eqb _ _); [done|]. destruct (isPlaying _); [done|].
  by apply clearIfSet_intervals_empty.
Qed.

(** Cancelling through [timerRef] never removes a pending timeout. *)
Lemma clearIfSet_timerRef_timeouts (s s0 : Metronome) :
  separated s → timeouts s0 = timeouts s →
  timeouts (clearIfSet (timerRef s) s0) = timeouts s.
Proof.
  intros Hsep Ht. unfold clearIfSet.
  destruct (timerRef s) as [h|] eqn:Hr; [|done].
  destruct (truthy (Some h)); [|done]. simpl. rewrite Ht.
  apply delete_id.
  destruct (timeouts s !! h) as [t|] eqn:Hh; [|done].
  by destruct (timeouts_apart s Hsep h t Hh) as [_ Hne].
Qed.

Lemma commit_timeouts (before s : Metronome) :
  separated s → timeouts (commit before s) = timeouts s.
Proof.
  intros Hsep. unfold commit.
  set (s1 := if decide _ then _ else _).
  assert (H1 : timeouts (mirrorRefs s1) = timeouts s
               ∧ timerRef (mirrorRefs s1) = timerRef s).
  { unfold s1. by destruct (decide _). }
  destruct H1 as [Ht Hr].
  destruct (eqb _ _); [done|]. destruct (isPlaying _); [done|].
  rewrite Hr. by apply clearIfSet_timerRef_timeouts.
Qed.

(** X7.  Pressing the button while playing stops the component: no
    repeating timer is left, and the cursor and the shown beat are back at
    0.  Pending timeouts (a delayed first start, a tap reschedule) are
    not cancelled. *)
Theorem stop_cancels_and_resets (evs : list Event) :
  isPlaying (run evs initial) = true →
  let s := run evs initial in
  let s' := step s ClickStartStop in
  isPlaying s' = false ∧ intervals s' = ∅
  ∧ nextBeatRef s' = 0%nat ∧ currentBeat s' = 0%nat
  ∧ timeouts s' = timeouts s.
Proof.
  cbv zeta.
  pose proof (owned_run evs initial owned_initial) as Hown.
  pose proof (separated_run evs initial owned_initial separated_initial) as Hsep.
  generalize dependent (run evs initial). intros s Hown Hsep Hplay.
  unfold step. simpl handle.
  destruct (commit_keeps s (startStop s)) as (Hp & Hn & Hc & _).
  assert (Hstop : startStop s
    = set_nextBeatRef 0%nat
        (setCurrentBeat 0
           (set_isPlaying false
              (clearIfSet (timerRef (ensureAudioContext s))
                 (ensureAudioContext s))))).
  { unfold startStop. by rewrite Hplay. }
  assert (Hown0 : owned (ensureAudioContext s))
    by (by eapply owned_frame; [..|exact Hown]).
  assert (Hi : intervals (startStop s) = ∅).
  { rewrite Hstop. exact (cancel_all _ Hown0). }
  assert (Ht : timeouts (startStop s) = timeouts s).
  { rewrite Hstop. by apply (clearIfSet_timerRef_timeouts s). }
  assert (Hsep' : separated (startStop s)) by (by apply separated_startStop).
  rewrite Hp, Hn, Hc, (commit_intervals_empty _ _ Hi), (commit_timeouts _ _ Hsep'), Ht.
  rewrite Hstop. done.
Qed.

Lemma stop_cancels_and_resets_witness :
  intervals (step (run [ClickStartStop; TimeoutFires 1] initial) ClickStartStop)
  = ∅.
Proof.
  assert (Hplay : isPlaying (run [ClickStartStop; TimeoutFires 1] initial) = true)
    by (vm_compute; reflexivity).
  pose proof (stop_cancels_and_resets _ Hplay) as H. cbv zeta in H.
  exact (proj1 (proj2 H)).
Defined.


Lemma commit_intervals_playing (before s : Metronome) :
  isPlaying s = true → intervals (commit before s) = intervals s.
Proof.
  intros Hplay. unfold commit.
  set (s1 := if decide _ then _ else _).
  assert (H1 : intervals (mirrorRefs s1) = intervals s
               ∧ isPlaying (mirrorRefs s1) = true).
  { unfold s1. by destruct (decide _). }
  destruct H1 as [Hi Hp]. rewrite Hp.
  by destruct (eqb _ _).
Qed.

Lemma startStop_first (s : Metronome) :
  isPlaying s = false → isFirstClickRef s = true →
  startStop s
  = set_isFirstClickRef false
      (snd (setTimeout (RunStartMetronome (beats (timeSignature s)))
              (aboutToStart s))).
Proof.
  intros Hstopped Hfirst. unfold startStop. rewrite Hstopped. cbv zeta.
  change (isFirstClickRef (set_nextBeatRef 0%nat
            (setCurrentBeat 0 (set_isPlaying true (ensureAudioContext s)))))
    with (isFirstClickRef s).
  rewrite Hfirst. reflexivity.
Qed.

Lemma startStop_later (s : Metronome) :
  isPlaying s = false → isFirstClickRef s = false →
  startStop s = startMetronome (beats (timeSignature s)) (aboutToStart s).
Proof.
  intros Hstopped Hfirst. unfold startStop. rewrite Hstopped. cbv zeta.
  change (isFirstClickRef (set_nextBeatRef 0%nat
            (setCurrentBeat 0 (set_isPlaying true (ensureAudioContext s)))))
    with (isFirstClickRef s).
  rewrite Hfirst. reflexivity.
Qed.

Lemma startMetronome_timeouts (count : nat) (s : Metronome) :
  separated s → timeouts (startMetronome count s) = timeouts s.
Proof.
  intros Hsep. unfold startMetronome. cbn -[clearIfSet].
  by apply clearIfSet_timerRef_timeouts.
Qed.

Lemma first_start (s : Metronome) :
  separated s → isPlaying s = false → isFirstClickRef s = true →
  isPlaying (step s ClickStartStop) = true
  ∧ audioContextRef (step s ClickStartStop) = true
  ∧ isFirstClickRef (step s ClickStartStop) = false
  ∧ intervals (step s ClickStartStop) = intervals s
  ∧ timeouts (step s ClickStartStop)
    = <[nextHandle s := RunStartMetronome (beats (timeSignature s))]> (timeouts s)
  ∧ nextBeatRef (step s ClickStartStop) = 0%nat.
Proof.
  intros Hsep Hstopped Hfirst. unfold step.
  change (handle ClickStartStop s) with (startStop s).
  destruct (commit_keeps s (startStop s)) as (Hp & Hn & _ & _ & Ha & Hf & _).
  assert (Hsep' : separated (startStop s)) by (by apply separated_startStop).
  rewrite Hp, Hn, Ha, Hf, (commit_timeouts _ _ Hsep').
  pose proof (startStop_first s Hstopped Hfirst) as Hstart.
  assert (Hplay' : isPlaying (startStop s) = true)
    by (rewrite Hstart; reflexivity).
  rewrite (commit_intervals_playing _ _ Hplay'), Hstart.
  repeat split; reflexivity.
Qed.

Lemma later_start (s : Metronome) :
  owned s → separated s → isPlaying s = false → isFirstClickRef s = false →
  isPlaying (step s ClickStartStop) = true
  ∧ audioContextRef (step s ClickStartStop) = true
  ∧ isFirstClickRef (step s ClickStartStop) = false
  ∧ intervals (step s ClickStartStop)
    = {[ nextHandle s := startTimer (beats (timeSignature s)) s ]}
  ∧ timeouts (step s ClickStartStop) = timeouts s
  ∧ nextBeatRef (step s ClickStartStop) = (1 mod beats (timeSignature s))%nat
  ∧ log (step s ClickStartStop)
    = log s ++ [SetCurrentBeat 0;
                PlayClick 0 (soundAt 0 (ensureAudioContext s));
                SetCurrentBeat 0].
Proof.
  intros Hown Hsep Hstopped Hfirst. unfold step.
  change (handle ClickStartStop s) with (startStop s).
  destruct (commit_keeps s (startStop s)) as (Hp & Hn & _ & Hl & Ha & Hf & _).
  assert (Hsep' : separated (startStop s)) by (by apply separated_startStop).
  rewrite Hp, Hn, Hl, Ha, Hf, (commit_timeouts _ _ Hsep').
  assert (Hown1 : owned (aboutToStart s))
    by (by eapply owned_frame; [..|exact Hown]).
  assert (Hsep1 : separated (aboutToStart s))
    by (by eapply separated_frame; [..|exact Hsep]).
  pose proof (startStop_later s Hstopped Hfirst) as Hstart.
  assert (Hplay' : isPlaying (startStop s) = true)
    by (rewrite Hstart, startMetronome_isPlaying; reflexivity).
  rewrite (commit_intervals_playing _ _ Hplay'), Hstart.
  destruct (startMetronome_frame (beats (timeSignature s)) (aboutToStart s))
    as (_ & _ & Hf' & Ha' & Hp' & _). cbv zeta in Hf', Ha', Hp'.
  destruct (startMetronome_order (beats (timeSignature s)) (aboutToStart s))
    as (Hlog & _ & Hnext).
  rewrite Hp', Ha', Hf', Hlog, Hnext, (startMetronome_intervals _ _ Hown1),
    (startMetronome_timeouts _ _ Hsep1).
  split; [reflexivity|]. split; [reflexivity|]. split; [exact Hfirst|].
  split; [reflexivity|]. split; [reflexivity|]. split; [reflexivity|].
  change (log (aboutToStart s)) with (log s ++ [SetCurrentBeat 0]).
  by rewrite <- app_assoc.
Qed.

(** X8.  Pressing the button while stopped makes the audio context
    available and starts playing.  The first start of a session arms no
    timer: it leaves a timeout that will call [startMetronome] with the
    beat count of that moment.  Every later start arms the timer at once,
    after sounding beat 0. *)
Theorem start_delayed_only_once (evs : list Event) :
  isPlaying (run evs initial) = false →
  let s := run evs initial in
  let s' := step s ClickStartStop in
  let count := beats (timeSignature s) in
  isPlaying s' = true ∧ audioContextRef s' = true
  ∧ isFirstClickRef s' = false
  ∧ if isFirstClickRef s then
      intervals s' = intervals s
      ∧ timeouts s' = <[nextHandle s := RunStartMetronome count]> (timeouts s)
      ∧ nextBeatRef s' = 0%nat
    else
      intervals s' = {[ nextHandle s := startTimer count s ]}
      ∧ timeouts s' = timeouts s
      ∧ nextBeatRef s' = (1 mod count)%nat
      ∧ log s' = log s ++ [SetCurrentBeat 0;
                           PlayClick 0 (soundAt 0 (ensureAudioContext s));
                           SetCurrentBeat 0].
Proof.
  cbv zeta.
  pose proof (owned_run evs initial owned_initial) as Hown.
  pose proof (separated_run evs initial owned_initial separated_initial) as Hsep.
  generalize dependent (run evs initial). intros s Hown Hsep Hstopped.
  destruct (isFirstClickRef s) eqn:Hfirst.
  - destruct (first_start s Hsep Hstopped Hfirst) as (H1 & H2 & H3 & H4 & H5 & H6).
    repeat split; assumption.
  - destruct (later_start s Hown Hsep Hstopped Hfirst)
      as (H1 & H2 & H3 & H4 & H5 & H6 & H7).
    repeat split; assumption.
Qed.

Lemma start_delayed_only_once_witness :
  isPlaying (step (run [ClickStartStop; ClickStartStop] initial) ClickStartStop)
  = true.
Proof.
  assert (Hstopped : isPlaying (run [ClickStartStop; ClickStartStop] initial)
                     = false) by (vm_compute; reflexivity).
  pose proof (start_delayed_only_once _ Hstopped) as H. cbv zeta in H.
  exact (proj1 H).
Defined.

(** ** The warm-up happens once *)

Lemma startStop_isFirstClickRef (s : Metronome) :
  isFirstClickRef (startStop s)
  = if isPlaying s then isFirstClickRef s else false.
Proof.
  unfold startStop. destruct (isPlaying s); [through_clears|].
  cbn -[startMetronome]. destruct (isFirstClickRef s) eqn:Hfirst; [done|].
  destruct (startMetronome_frame (beats (timeSignature s)) (aboutToStart s))
    as (_ & _ & Hf & _). cbv zeta in Hf. unfold aboutToStart in Hf.
  rewrite Hf. exact Hfirst.
Qed.

Lemma step_first_click_spent (s : Metronome) (ev : Event) :
  isFirstClickRef s = false → isFirstClickRef (step s ev) = false.
Proof.
  intros Hspent. unfold step.
  destruct (commit_keeps s (handle ev s)) as (_ & _ & _ & _ & _ & -> & _).
  destruct ev as [| | |e|now|i| |h|h|]; simpl handle; try done.
  - rewrite startStop_isFirstClickRef. by destruct (isPlaying s).
  - unfold onTempoCommit. destruct (isPlaying s); [|done].
    by destruct (startMetronome_frame (beats (timeSignature s)) s)
      as (_ & _ & -> & _).
  - unfold onSignatureChange. destruct (isPlaying s); through_clears.
  - by destruct (handleTapTempo_keeps now s) as (_ & _ & -> & _).
  - unfold runTimeout. destruct (timeouts s !! h) as [[count|]|]; [|done|done].
    by destruct (startMetronome_frame count
                   (set_timeouts (delete h (timeouts s)) s))
      as (_ & _ & -> & _).
  - unfold runInterval. by destruct (intervals s !! h).
Qed.

(** X9.  The delayed start is a one-time cost: once the button has
    started the component from a stopped state, [isFirstClickRef] is
    [false] and no later event sets it again. *)
Theorem warm_up_happens_once (s : Metronome) (evs : list Event) :
  isPlaying s = false →
  isFirstClickRef (run evs (step s ClickStartStop)) = false.
Proof.
  intros Hstopped.
  assert (Hspent : isFirstClickRef (step s ClickStartStop) = false).
  { unfold step.
    destruct (commit_keeps s (handle ClickStartStop s))
      as (_ & _ & _ & _ & _ & -> & _).
    simpl handle. by rewrite startStop_isFirstClickRef, Hstopped. }
  generalize dependent (step s ClickStartStop). clear s Hstopped.
  induction evs as [|ev evs IH]; intros s Hspent; [done|].
  simpl. by apply IH, step_first_click_spent.
Qed.

Lemma warm_up_happens_once_witness :
  isFirstClickRef
    (run [ClickStartStop; ClickStartStop] (step initial ClickStartStop)) = false.
Proof. apply (warm_up_happens_once initial). reflexivity. Defined.


(** ** A pending start fires whatever happened since *)

Lemma runTimeout_start (h : Z) (count : nat) (s : Metronome) :
  timeouts s !! h = Some (RunStartMetronome count) →
  runTimeout h s
  = startMetronome count (set_timeouts (delete h (timeouts s)) s).
Proof. intros Hh. unfold runTimeout. by rewrite Hh. Qed.

(** X10.  A pending start callback, when its timeout fires, cancels the
    live timer and arms a new one with the beat count it captured when it
    was scheduled; it sounds and shows the beat under the cursor at once
    and advances the cursor modulo that count.  It does not look at
    [isPlaying]: a start left pending when the component was stopped
    still arms the timer. *)
Theorem pending_start_arms_timer (evs : list Event) (h : Z) (count : nat) :
  timeouts (run evs initial) !! h = Some (RunStartMetronome count) →
  let s := run evs initial in
  let s' := step s (TimeoutFires h) in
  isPlaying s' = isPlaying s
  ∧ intervals s' = {[ nextHandle s := startTimer count s ]}
  ∧ timerRef s' = Some (nextHandle s)
  ∧ timeouts s' = delete h (timeouts s)
  ∧ log s' = log s ++ [PlayClick (nextBeatRef s) (soundAt (nextBeatRef s) s);
                       SetCurrentBeat (nextBeatRef s)]
  ∧ nextBeatRef s' = ((nextBeatRef s + 1) mod count)%nat.
Proof.
  cbv zeta.
  pose proof (owned_run evs initial owned_initial) as Hown.
  pose proof (separated_run evs initial owned_initial separated_initial) as Hsep.
  generalize dependent (run evs initial). intros s Hown Hsep Hh.
  unfold step. change (handle (TimeoutFires h) s) with (runTimeout h s).
  rewrite (runTimeout_start h count s Hh).
  set (s1 := set_timeouts (delete h (timeouts s)) s).
  assert (Hown1 : owned s1) by (by eapply owned_frame; [..|exact Hown]).
  assert (Hsep1 : separated s1).
  { destruct Hsep as [Ha Hb Hc]. split; [|done|done].
    intros k t Hk. simpl in Hk.
    apply lookup_delete_Some in Hk as [_ Hk]. by apply (Ha k t). }
  assert (Hp : isPlaying (startMetronome count s1) = isPlaying s)
    by (by rewrite startMetronome_isPlaying).
  destruct (commit_keeps_timers s (startMetronome count s1) Hp)
    as (Hi & Hr & _ & Hn & _ & Hl & Hp' & _).
  assert (Hsep2 : separated (startMetronome count s1))
    by (by apply separated_startMetronome).
  destruct (startMetronome_order count s1) as (Hlog & _ & Hnext).
  rewrite Hp', Hp, Hi, Hr, Hn, Hl, (commit_timeouts _ _ Hsep2),
    (startMetronome_intervals _ _ Hown1), startMetronome_timerRef,
    (startMetronome_timeouts _ _ Hsep1), Hlog, Hnext.
  repeat split.
Qed.

Lemma pending_start_arms_timer_witness :
  isPlaying (step (run [ClickStartStop; ClickStartStop] initial) (TimeoutFires 1))
  = false
  ∧ size (intervals
            (step (run [ClickStartStop; ClickStartStop] initial) (TimeoutFires 1)))
    = 1%nat.
Proof.
  assert (Hh : timeouts (run [ClickStartStop; ClickStartStop] initial) !! 1
               = Some (RunStartMetronome 4)) by (vm_compute; reflexivity).
  pose proof (pending_start_arms_timer _ 1 4%nat Hh) as H. cbv zeta in H.
  destruct H as (Hp & Hi & _). rewrite Hp, Hi. split.
  - vm_compute. reflexivity.
  - apply map_size_singleton.
Defined.

(** ** Taps and the running timer *)

Lemma clearIfSet_falsy (r : option Z) (s : Metronome) :
  truthy r = false → clearIfSet r s = s.
Proof. intros Hr. unfold clearIfSet. destruct r; [|done]. by rewrite Hr. Qed.

Lemma clearIfSet_absent (r : option Z) (s : Metronome) :
  (∀ h, r = Some h → intervals s !! h = None) →
  intervals (clearIfSet r s) = intervals s.
Proof.
  intros Habsent. unfold clearIfSet. destruct r as [h|]; [|done].
  destruct (truthy (Some h)); [|done]. simpl. apply delete_id. by apply Habsent.
Qed.

(** The state of the tap handler before it looks at [isPlaying]. *)
Lemma tap_prefix (bpm : Z) (now : Q) (s : Metronome) :
  truthy (winLockoutRef s) = false →
  let s2 := set_tempo bpm (set_tapTimesRef (tapWindow now (tapTimesRef s)) s) in
  let s3 :=
    if (550 <=? bpm) && negb (hasWon s) then
      let s3a := set_hasWon true s2 in
      let s3b := clearIfSet (winLockoutRef s3a) s3a in
      let '(h, s3c) := setTimeout ExpireWinLockout s3b in
      set_winLockoutRef (Some h) s3c
    else s2 in
  intervals s3 = intervals s ∧ timerRef s3 = timerRef s
  ∧ nextBeatRef s3 = nextBeatRef s ∧ tapTimeoutRef s3 = tapTimeoutRef s
  ∧ nextHandle s ≤ nextHandle s3
  ∧ timeSignature s3 = timeSignature s.
Proof.
  intros Hlock. cbv zeta.
  destruct (_ && _); [|repeat split; simpl; first [reflexivity | lia]].
  change (winLockoutRef (set_hasWon true _)) with (winLockoutRef s).
  rewrite (clearIfSet_falsy _ _ Hlock). simpl.
  repeat split; first [reflexivity | lia].
Qed.

(** X11.  A tap never cancels or re-arms the running timer and never
    moves the cursor: the new tempo takes effect on the timer only when
    the reschedule timeout fires.  While playing, a tap that sets a tempo
    leaves exactly its own reschedule pending; the one an earlier tap left
    is cancelled. *)
Theorem tap_leaves_timer_alone (evs : list Event) (now : Q) :
  let s := run evs initial in
  let s' := step s (Tap now) in
  intervals s' = intervals s ∧ timerRef s' = timerRef s
  ∧ nextBeatRef s' = nextBeatRef s
  ∧ (isPlaying s = true → is_Some (fst (handleTapTempo now s)) →
     ∃ h, tapTimeoutRef s' = Some h
          ∧ timeouts s' !! h
            = Some (RunStartMetronome (beats (timeSignature s)))
          ∧ ∀ old, tapTimeoutRef s = Some old → old ≠ 0 →
                   timeouts s' !! old = None).
Proof.
  cbv zeta.
  pose proof (owned_run evs initial owned_initial) as Hown.
  pose proof (separated_run evs initial owned_initial separated_initial) as Hsep.
  generalize dependent (run evs initial). intros s Hown Hsep.
  unfold step. change (handle (Tap now) s) with (snd (handleTapTempo now s)).
  assert (Hsep' : separated (snd (handleTapTempo now s)))
    by (by apply separated_handleTapTempo).
  assert (Hp : isPlaying (snd (handleTapTempo now s)) = isPlaying s)
    by (by destruct (handleTapTempo_keeps now s) as (_ & _ & _ & _ & ->)).
  destruct (commit_keeps_timers s _ Hp) as (Hi & Hr & _ & Hn & _).
  destruct (commit_keeps s (snd (handleTapTempo now s)))
    as (_ & _ & _ & _ & _ & _ & _ & _ & Htr).
  rewrite Hi, Hr, Hn, Htr, (commit_timeouts _ _ Hsep'). clear Hi Hr Hn Htr Hp Hsep'.
  unfold handleTapTempo.
  destruct (truthy (winLockoutRef s)) eqn:Hlock.
  { repeat split. intros _ [bpm Hbpm]. discriminate. }
  cbn [tapTimesRef set_tapTimesRef].
  destruct (tapTempo (tapWindow now (tapTimesRef s))) as [bpm|];
    [|repeat split; intros _ [? ?]; discriminate].
  destruct (tap_prefix bpm now s Hlock) as (Hi3 & Hr3 & Hn3 & Ht3 & Hh3 & Hts3).
  cbv zeta in Hi3, Hr3, Hn3, Ht3, Hh3, Hts3. cbn [fst snd].
  set (s3 := if _ && _ then _ else _) in *.
  destruct (isPlaying s) eqn:Hplay.
  - set (s4 := clearIfSet (tapTimeoutRef s3) s3).
    assert (Hi4 : intervals s4 = intervals s).
    { unfold s4. rewrite clearIfSet_absent, Hi3; [done|].
      intros h Hh. rewrite Ht3 in Hh. rewrite Hi3.
      by destruct (tapTimeout_apart s Hsep h Hh). }
    assert (Hh4 : nextHandle s4 = nextHandle s3) by apply clearIfSet_nextHandle.
    split; [exact Hi4|]. split.
    { cbn -[clearIfSet]. unfold s4. by rewrite clearIfSet_timerRef. }
    split.
    { cbn -[clearIfSet]. unfold s4. by rewrite clearIfSet_nextBeatRef. }
    intros _ _. exists (nextHandle s4). split; [done|]. split.
    { cbn -[clearIfSet]. by rewrite lookup_insert_eq. }
    intros old Hold Hnz. cbn -[clearIfSet].
    destruct (tapTimeout_apart s Hsep old Hold) as [Hlt _].
    rewrite lookup_insert_ne by lia.
    unfold s4, clearIfSet. rewrite Ht3, Hold. simpl.
    replace (old =? 0) with false by (symmetry; by apply Z.eqb_neq).
    simpl. apply lookup_delete_eq.
  - split; [exact Hi3|]. split; [exact Hr3|]. split; [exact Hn3|].
    intros Hcontra. discriminate.
Qed.


(** ** Ticks are periodic *)

Lemma fireBeat_mirrored (count : nat) (s : Metronome) :
  mirrored s → mirrored (fireBeat count s).
Proof. intros [Ht Hv Ha]. by split. Qed.

Lemma step_tick (h : Z) (t : IntervalTimer) (s : Metronome) :
  mirrored s → intervals s !! h = Some t →
  step s (IntervalFires h) = fireBeat (modulus t) s.
Proof.
  intros Hmir Hh. rewrite (step_IntervalFires h t s Hh).
  by apply mirrorRefs_id, fireBeat_mirrored.
Qed.

Lemma fireBeat_soundAt (count c : nat) (s : Metronome) :
  soundAt c (fireBeat count s) = soundAt c s.
Proof. reflexivity. Qed.

Lemma beatTrace_ext (n c k : nat) (s s' : Metronome) :
  (∀ i, soundAt i s' = soundAt i s) → beatTrace n c k s' = beatTrace n c k s.
Proof.
  intros Hsame. unfold beatTrace. f_equal. apply list_fmap_ext.
  intros i j _. by rewrite Hsame.
Qed.

Lemma beatTrace_S (n c k : nat) (s : Metronome) :
  (c < n)%nat →
  beatTrace n c (S k) s
  = [PlayClick c (soundAt c s); SetCurrentBeat c]
    ++ beatTrace n ((c + 1) mod n) k s.
Proof.
  intros Hlt. unfold beatTrace. simpl seq. rewrite fmap_cons. simpl concat.
  rewrite Nat.add_0_r, Nat.mod_small by done.
  rewrite <- fmap_S_seq, <- list_fmap_compose. simpl app. do 3 f_equal.
  apply list_fmap_ext. intros i j _. simpl.
  rewrite Nat.Div0.add_mod_idemp_l.
  by replace (c + 1 + j)%nat with (c + S j)%nat by lia.
Qed.

Lemma ticks_trace (k : nat) (h : Z) (t : IntervalTimer) (s : Metronome) :
  mirrored s → intervals s !! h = Some t → (nextBeatRef s < modulus t)%nat →
  log (run (replicate k (IntervalFires h)) s)
  = log s ++ beatTrace (modulus t) (nextBeatRef s) k s.
Proof.
  revert s. induction k as [|k IH]; intros s Hmir Hh Hlt.
  - simpl. by rewrite app_nil_r.
  - simpl run. rewrite (step_tick h t s Hmir Hh).
    destruct (fireBeat_order (modulus t) s) as (Hlog & _ & Hnext).
    rewrite IH.
    + rewrite Hlog, Hnext.
      rewrite beatTrace_S by done. rewrite <- app_assoc. simpl app.
      rewrite (beatTrace_ext _ _ _ s (fireBeat (modulus t) s)); [done|].
      intros i. apply fireBeat_soundAt.
    + by apply fireBeat_mirrored.
    + exact Hh.
    + rewrite Hnext. apply Nat.mod_upper_bound. lia.
Qed.

(** X12.  While a repeating timer is left alone, its ticks sound the
    beats in order and in a cycle: from a cursor [c] below the timer's
    beat count [n], the [i]-th tick sounds and shows beat [(c + i) mod n],
    with no beat skipped or repeated. *)
Theorem ticks_are_periodic (evs : list Event) (k : nat) (h : Z)
    (t : IntervalTimer) :
  intervals (run evs initial) !! h = Some t →
  (nextBeatRef (run evs initial) < modulus t)%nat →
  let s := run evs initial in
  log (run (replicate k (IntervalFires h)) s)
  = log s ++ beatTrace (modulus t) (nextBeatRef s) k s.
Proof.
  cbv zeta. intros Hh Hlt. apply ticks_trace; [|done|done].
  apply mirrored_run.
Qed.

Lemma ticks_are_periodic_witness :
  log (run (replicate 5 (IntervalFires 2))
         (run [ClickStartStop; TimeoutFires 1] initial))
  = log (run [ClickStartStop; TimeoutFires 1] initial)
    ++ beatTrace (modulus (startTimer 4 initial))
         (nextBeatRef (run [ClickStartStop; TimeoutFires 1] initial)) 5
         (run [ClickStartStop; TimeoutFires 1] initial).
Proof.
  assert (Hh : intervals (run [ClickStartStop; TimeoutFires 1] initial) !! 2
               = Some (startTimer 4 initial)) by (vm_compute; reflexivity).
  assert (Hlt : (nextBeatRef (run [ClickStartStop; TimeoutFires 1] initial)
                 < modulus (startTimer 4 initial))%nat) by (vm_compute; lia).
  pose proof (ticks_are_periodic _ 5 2 _ Hh Hlt) as H. cbv zeta in H.
  exact H.
Defined.


(** ** Every beat is heard *)

Lemma audible_true (s : Metronome) : audioContextRef s = true → audible s.
Proof. by intros Ha _. Qed.

Lemma audible_shrink (s s' : Metronome) :
  audioContextRef s' = audioContextRef s → isPlaying s' = isPlaying s →
  (∀ h, is_Some (intervals s' !! h) → is_Some (intervals s !! h)) →
  (∀ h c, timeouts s' !! h = Some (RunStartMetronome c) →
          timeouts s !! h = Some (RunStartMetronome c)) →
  audible s → audible s'.
Proof.
  intros Ha Hp Hi Ht Hs [Hplay|[[h Hh]|(h & c & Hh)]]; rewrite Ha; apply Hs.
  - left. by rewrite <- Hp.
  - right. left. exists h. by apply Hi.
  - right. right. exists h, c. by apply Ht.
Qed.

Lemma audible_clearIfSet (r : option Z) (s : Metronome) :
  audible s → audible (clearIfSet r s).
Proof.
  apply audible_shrink.
  - apply clearIfSet_audioContextRef.
  - apply clearIfSet_isPlaying.
  - intros h. unfold clearIfSet. destruct r as [k|]; [|done].
    destruct (truthy (Some k)); [|done]. simpl.
    intros [t Ht]. apply lookup_delete_Some in Ht as [_ Ht]. by exists t.
  - intros h c. unfold clearIfSet. destruct r as [k|]; [|done].
    destruct (truthy (Some k)); [|done]. simpl.
    intros Ht. by apply lookup_delete_Some in Ht as [_ Ht].
Qed.

Lemma startStop_audio (s : Metronome) : audioContextRef (startStop s) = true.
Proof.
  unfold startStop. destruct (isPlaying s); [through_clears|].
  cbn -[startMetronome]. destruct (isFirstClickRef s); [done|].
  by destruct (startMetronome_frame (beats (timeSignature s)) (aboutToStart s))
    as (_ & _ & _ & Ha & _).
Qed.

Lemma audible_handleTapTempo (now : Q) (s : Metronome) :
  audible s → audible (snd (handleTapTempo now s)).
Proof.
  intros Hs.
  destruct (handleTapTempo_keeps now s) as (_ & _ & _ & Ha & Hp).
  cbv zeta in Ha, Hp.
  destruct (isPlaying s) eqn:Hplay.
  { apply audible_true. rewrite Ha. apply Hs. by left. }
  revert Ha Hp. unfold handleTapTempo.
  destruct (truthy (winLockoutRef s)) eqn:Hlock; [done|].
  cbn [tapTimesRef set_tapTimesRef].
  destruct (tapTempo (tapWindow now (tapTimesRef s))) as [bpm|].
  - cbn [snd]. rewrite Hplay. intros Ha Hp.
    apply (audible_shrink s); [done|by rewrite Hp| | |exact Hs].
    + destruct (_ && _); [|done].
      change (winLockoutRef (set_hasWon true _)) with (winLockoutRef s).
      by rewrite (clearIfSet_falsy _ _ Hlock).
    + destruct (_ && _); [|done].
      change (winLockoutRef (set_hasWon true _)) with (winLockoutRef s).
      rewrite (clearIfSet_falsy _ _ Hlock). simpl. intros h c Hh.
      apply lookup_insert_Some in Hh as [[_ Hh]|[_ Hh]]; [discriminate | done].
  - intros _ _. by apply (audible_shrink s).
Qed.

Lemma audible_handle (ev : Event) (s : Metronome) :
  audible s → audible (handle ev s).
Proof.
  intros Hs. destruct ev as [| | |e|now|i| |h|h|]; simpl handle.
  - apply audible_true, startStop_audio.
  - by apply (audible_shrink s).
  - unfold onTempoCommit. destruct (isPlaying s) eqn:Hplay; [|done].
    apply audible_true.
    destruct (startMetronome_frame (beats (timeSignature s)) s)
      as (_ & _ & _ & -> & _).
    apply Hs. by left.
  - unfold onSignatureChange. destruct (isPlaying s) eqn:Hplay.
    + apply audible_true. through_clears. apply Hs. by left.
    + by apply (audible_shrink s).
  - by apply audible_handleTapTempo.
  - by apply (audible_shrink s).
  - by apply (audible_shrink s).
  - unfold runTimeout. destruct (timeouts s !! h) as [[count|]|] eqn:Hh; [| |done].
    + apply audible_true.
      destruct (startMetronome_frame count
                  (set_timeouts (delete h (timeouts s)) s))
        as (_ & _ & _ & -> & _).
      apply Hs. right. right. by exists h, count.
    + apply (audible_shrink s); try done. simpl. intros k c Hk.
      by apply lookup_delete_Some in Hk as [_ Hk].
  - unfold runInterval. destruct (intervals s !! h); [|done].
    by apply (audible_shrink s).
  - by apply (audible_shrink s).
Qed.

Lemma audible_commit (before s : Metronome) :
  audible s → audible (commit before s).
Proof.
  intros Hs. unfold commit.
  set (s1 := if decide _ then _ else _).
  assert (Hs2 : audible (mirrorRefs s1)).
  { apply (audible_shrink s); unfold s1; by destruct (decide _). }
  destruct (eqb _ _); [done|]. destruct (isPlaying _); [done|].
  by apply audible_clearIfSet.
Qed.

Lemma audible_run (evs : list Event) : audible (run evs initial).
Proof.
  induction evs as [|ev evs IH] using rev_ind.
  - intros [Hp|[[h [t Hh]]|(h & c & Hh)]]; simpl in *;
      [discriminate | by rewrite lookup_empty in Hh
                    | by rewrite lookup_empty in Hh].
  - rewrite run_snoc. by apply audible_commit, audible_handle.
Qed.

(** X13.  Whenever a repeating timer is live the audio context exists,
    so [playClick] never takes its early return on a tick: each tick
    reaches the oscillator, with the accent the current pattern has at
    the cursor, at 1200 Hz for an accent and 800 Hz otherwise, and is then
    shown. *)
Theorem every_tick_is_heard (evs : list Event) (h : Z) (t : IntervalTimer) :
  intervals (run evs initial) !! h = Some t →
  let s := run evs initial in
  let c := nextBeatRef s in
  let accented := js_get (accentBeats s) c in
  audioContextRef s = true
  ∧ ∃ click,
      log (step s (IntervalFires h))
      = log s ++ [PlayClick c (Some click); SetCurrentBeat c]
      ∧ isAccent click = accented
      ∧ clickFrequency click = (if accented then 1200 else 800)%Q.
Proof.
  cbv zeta. intros Hh.
  pose proof (audible_run evs) as Haud.
  pose proof (mirrored_run evs) as Hmir.
  generalize dependent (run evs initial). intros s Hh Haud Hmir.
  assert (Ha : audioContextRef s = true).
  { apply Haud. right. left. by exists h, t. }
  split; [exact Ha|].
  rewrite (step_tick h t s Hmir Hh).
  destruct (fireBeat_order (modulus t) s) as (Hlog & _).
  rewrite Hlog. unfold soundAt.
  rewrite Ha, (accents_mirrored s Hmir). eexists. split; [reflexivity|]. done.
Qed.

Lemma every_tick_is_heard_witness :
  audioContextRef (run [ClickStartStop; TimeoutFires 1] initial) = true.
Proof.
  assert (Hh : intervals (run [ClickStartStop; TimeoutFires 1] initial) !! 2
               = Some (startTimer 4 initial)) by (vm_compute; reflexivity).
  pose proof (every_tick_is_heard _ 2 _ Hh) as H. cbv zeta in H.
  exact (proj1 H).
Defined.


(** ** Display helpers *)

(** ** Tempo names *)

(** Settle every comparison the goal tests, from the hypotheses. *)
Ltac settle_leb :=
  repeat match goal with
         | |- context [?a <=? ?b] =>
             first [ replace (a <=? b) with true
                       by (symmetry; apply Z.leb_le; lia)
                   | replace (a <=? b) with false
                       by (symmetry; apply Z.leb_gt; lia) ]
         end.

Lemma tempo_bands (tempo : Z) :
  tempo ≤ 40 ∨ 40 < tempo ≤ 66 ∨ 66 < tempo ≤ 76 ∨ 76 < tempo ≤ 108
  ∨ 108 < tempo ≤ 120 ∨ 120 < tempo ≤ 168 ∨ 168 < tempo ≤ 280
  ∨ 280 < tempo ≤ 350 ∨ 350 < tempo ≤ 415 ∨ 415 < tempo ≤ 480
  ∨ 480 < tempo ≤ 549 ∨ 549 < tempo ≤ 10000 ∨ 10000 < tempo.
Proof. lia. Qed.

(** X14.  The name shown is "You Win!" exactly for tempos from 550 to
    10000, so for every tempo the tap handler can set (at most 800) it
    agrees with the handler's own win test, [clampedTempo >= 550].
    Above 10000 no range matches and the name falls back to "Presto". *)
Theorem win_name_matches_threshold (tempo : Z) :
  (getTempoName tempo = "You Win!" ↔ 550 ≤ tempo ≤ 10000)
  ∧ (10000 < tempo → getTempoName tempo = "Presto").
Proof.
  unfold getTempoName, EASTER_EGG_TEMPOS, TEMPO_MARKS. cbn [List.find min_of max_of tempo_of].
  destruct (tempo_bands tempo) as [H|[H|[H|[H|[H|[H|[H|[H|[H|[H|[H|[H|H]]]]]]]]]]]];
    settle_leb; cbn; (split; [split; [intros Heq; discriminate Heq || lia | intros; lia || reflexivity] | intros; lia || reflexivity]).
Qed.

Lemma win_name_matches_threshold_witness : getTempoName 10001 = "Presto".
Proof. apply (proj2 (win_name_matches_threshold 10001)). lia. Defined.

Lemma classical_bands (tempo : Z) :
  tempo ≤ 280 →
  getTempoName tempo
  = if tempo <=? 40 then "Largo" else if tempo <=? 66 then "Adagio"
    else if tempo <=? 76 then "Andante" else if tempo <=? 108 then "Moderato"
    else if tempo <=? 120 then "Allegro" else if tempo <=? 168 then "Vivace"
    else "Presto".
Proof.
  intros Hle. unfold getTempoName, EASTER_EGG_TEMPOS, TEMPO_MARKS.
  cbn [List.find min_of max_of tempo_of].
  destruct (tempo_bands tempo) as [H|[H|[H|[H|[H|[H|[H|H]]]]]]]; [..|lia];
    settle_leb; reflexivity.
Qed.

(** X15.  Up to 280 the name is the classical marking with the lowest
    tempo at or above the given one. *)
Theorem classical_name_is_next_marking (tempo : Z) :
  tempo ≤ 280 →
  ∃ mark, mark ∈ TEMPO_MARKS ∧ getTempoName tempo = name mark
          ∧ tempo ≤ tempo_of mark
          ∧ ∀ other, other ∈ TEMPO_MARKS → tempo ≤ tempo_of other →
                     tempo_of mark ≤ tempo_of other.
Proof.
  intros Hle. rewrite (classical_bands tempo Hle).
  destruct (tempo_bands tempo) as [H|[H|[H|[H|[H|[H|[H|H]]]]]]]; [..|lia];
    settle_leb;
    [ exists {| name := "Largo"; tempo_of := 40 |}
    | exists {| name := "Adagio"; tempo_of := 66 |}
    | exists {| name := "Andante"; tempo_of := 76 |}
    | exists {| name := "Moderato"; tempo_of := 108 |}
    | exists {| name := "Allegro"; tempo_of := 120 |}
    | exists {| name := "Vivace"; tempo_of := 168 |}
    | exists {| name := "Presto"; tempo_of := 280 |} ];
    (split;
     [ unfold TEMPO_MARKS;
       repeat first [apply list_elem_of_here | apply list_elem_of_further]
     | split; [reflexivity|]; split; [simpl; lia|];
       intros other Hin Hge; unfold TEMPO_MARKS in Hin;
       repeat (apply elem_of_cons in Hin as [->|Hin]; [simpl in *; lia|]);
       by apply elem_of_nil in Hin ]).
Qed.

Lemma classical_name_is_next_marking_witness : getTempoName 100 = "Moderato".
Proof.
  destruct (classical_name_is_next_marking 100 ltac:(lia)) as (m & _ & Hn & _).
  reflexivity.
Defined.


(** ** Tempo colour and size *)

Lemma Math_round_mono (x y : Q) : (x <= y)%Q → Math_round x ≤ Math_round y.
Proof.
  intros Hle. unfold Math_round. apply Qfloor_resp_le.
  apply Qplus_le_compat; [done | apply Qle_refl].
Qed.

Lemma hotness_mono (t1 t2 : Z) :
  t1 ≤ t2 →
  (255 * ((inject_Z t1 - 280) / (550 - 280))
   <= 255 * ((inject_Z t2 - 280) / (550 - 280)))%Q.
Proof.
  intros Hle. unfold Qle, Qmult, Qdiv, Qminus, Qplus, Qopp, Qinv. simpl. lia.
Qed.

Lemma getTempoColor_warm (tempo : Z) :
  280 < tempo → tempo < 550 →
  getTempoColor tempo
  = rgb (Math_round (255 * ((inject_Z tempo - 280) / (550 - 280)))) 0 0.
Proof.
  intros Hlo Hhi. unfold getTempoColor.
  replace (tempo <=? 280) with false by (symmetry; apply Z.leb_gt; lia).
  by replace (550 <=? tempo) with false by (symmetry; apply Z.leb_gt; lia).
Qed.

(** X16.  Between 280 and 550 the colour is a pure red whose channel is
    a valid byte, from 1 to 254, and never decreases as the tempo
    rises. *)
Theorem red_grows_with_tempo (t1 t2 : Z) :
  280 < t1 → t1 ≤ t2 → t2 < 550 →
  ∃ r1 r2, getTempoColor t1 = rgb r1 0 0 ∧ getTempoColor t2 = rgb r2 0 0
           ∧ 1 ≤ r1 ∧ r1 ≤ r2 ∧ r2 ≤ 254.
Proof.
  intros Hlo Hle Hhi.
  rewrite (getTempoColor_warm t1), (getTempoColor_warm t2) by lia.
  eexists _, _. split; [reflexivity|]. split; [reflexivity|].
  split; [|split].
  - change 1 with (Math_round (255 * ((inject_Z 281 - 280) / (550 - 280)))).
    apply Math_round_mono, hotness_mono. lia.
  - apply Math_round_mono, hotness_mono. lia.
  - change 254 with (Math_round (255 * ((inject_Z 549 - 280) / (550 - 280)))).
    apply Math_round_mono, hotness_mono. lia.
Qed.

Lemma red_grows_with_tempo_witness :
  getTempoColor 415 = rgb 128 0 0.
Proof.
  destruct (red_grows_with_tempo 415 415 ltac:(lia) ltac:(lia) ltac:(lia))
    as (r1 & r2 & H1 & _).
  reflexivity.
Defined.

(** X17.  The font size stays between 2.25rem and 3.25rem, but it is not
    monotone: from 483 to 549 it is above 3rem, the size every tempo of
    550 and more gets, so the number shrinks when the tempo crosses
    550. *)
Theorem size_drops_at_550 (tempo : Z) :
  (9 # 4 <= getTempoSize tempo)%Q ∧ (getTempoSize tempo < 13 # 4)%Q
  ∧ (483 ≤ tempo < 550 →
     ∀ faster, 550 ≤ faster → (getTempoSize faster < getTempoSize tempo)%Q).
Proof.
  unfold getTempoSize.
  destruct (Z.leb_spec tempo 280) as [Hlow|Hlow].
  - split; [apply Qle_refl|]. split; [by vm_compute | lia].
  - destruct (Z.leb_spec 550 tempo) as [Hwin|Hwin].
    + split; [by vm_compute|]. split; [by vm_compute | lia].
    + split; [|split].
      * unfold Qle, Qmult, Qdiv, Qminus, Qplus, Qopp, Qinv. simpl. lia.
      * unfold Qlt, Qmult, Qdiv, Qminus, Qplus, Qopp, Qinv. simpl. lia.
      * intros Hband faster Hfaster.
        replace (faster <=? 280) with false by (symmetry; apply Z.leb_gt; lia).
        replace (550 <=? faster) with true by (symmetry; apply Z.leb_le; lia).
        unfold Qlt, Qmult, Qdiv, Qminus, Qplus, Qopp, Qinv. simpl. lia.
Qed.

Lemma size_drops_at_550_witness :
  (getTempoSize 550 < getTempoSize 549)%Q.
Proof.
  apply (proj2 (proj2 (size_drops_at_550 549))); lia.
Defined.

(** ** Note types *)

Lemma getAvailableNoteTypes_cases (sig : TimeSignature) :
  getAvailableNoteTypes sig = [quarter]
  ∨ getAvailableNoteTypes sig = [quarter; dottedQuarter; eighth]
  ∨ getAvailableNoteTypes sig = [dottedQuarter; eighth]
  ∨ getAvailableNoteTypes sig = [quarter; eighth]
  ∨ getAvailableNoteTypes sig = [eighth].
Proof.
  unfold getAvailableNoteTypes.
  destruct (value sig); [by left| |by left].
  destruct (_ =? _)%nat, (_ =? _)%nat; auto.
Qed.

(** X18.  The note button always selects a member of the available
    types, never [undefined], even from a type that is not available;
    and the type the select handler installs with a new signature is
    always an available one. *)
Theorem note_type_stays_available (sig : TimeSignature) (selected : NoteType) :
  (∃ next, cycleNoteType sig selected = Some next
           ∧ next ∈ getAvailableNoteTypes sig)
  ∧ defaultNoteType sig ∈ getAvailableNoteTypes sig.
Proof.
  split.
  - unfold cycleNoteType.
    destruct (getAvailableNoteTypes_cases sig) as [H|[H|[H|[H|H]]]];
      rewrite H; destruct selected; vm_compute;
      eexists; (split; [reflexivity|]);
      repeat first [apply list_elem_of_here | apply list_elem_of_further].
  - unfold defaultNoteType, getAvailableNoteTypes.
    destruct (value sig); simpl; try apply list_elem_of_here.
    destruct (_ =? _)%nat, (_ =? _)%nat;
      repeat first [apply list_elem_of_here | apply list_elem_of_further].
Qed.

(** X19.  Clicking the note button as many times as there are available
    types comes back to the type one started from. *)
Theorem note_cycle_returns (sig : TimeSignature) (selected : NoteType) :
  selected ∈ getAvailableNoteTypes sig →
  Nat.iter (length (getAvailableNoteTypes sig)) (clickNote sig) selected
  = selected.
Proof.
  unfold clickNote, cycleNoteType.
  destruct (getAvailableNoteTypes_cases sig) as [H|[H|[H|[H|H]]]];
    rewrite H; intros Hin;
    repeat (apply elem_of_cons in Hin as [->|Hin]; [by vm_compute|]);
    by apply elem_of_nil in Hin.
Qed.

Lemma note_cycle_returns_witness :
  Nat.iter 3 (clickNote sixEight) dottedQuarter = dottedQuarter.
Proof.
  apply (note_cycle_returns sixEight dottedQuarter).
  vm_compute. apply list_elem_of_further, list_elem_of_here.
Defined.

(** ** Displayed tempo *)

Lemma Math_round_bounds (x : Q) :
  (inject_Z (Math_round x) <= x + (1 # 2))%Q
  ∧ (x + (1 # 2) < inject_Z (Math_round x + 1))%Q.
Proof. unfold Math_round. split; [apply Qfloor_le | apply Qlt_floor]. Qed.

(** X20.  For the tempos the component can hold, 40 to 800: right after
    a signature is selected the displayed tempo is the tempo itself.  In
    an /8 signature the quarter-note display is the tempo halved and
    rounded up, and the dotted-quarter display is within one of a third
    of it. *)
Theorem displayed_tempo (baseTempo : Z) (sig : TimeSignature) :
  40 ≤ baseTempo ≤ 800 →
  getDisplayTempo baseTempo (defaultNoteType sig) sig = baseTempo
  ∧ (value sig = Den8 →
     2 * getDisplayTempo baseTempo quarter sig - 1 ≤ baseTempo
       ≤ 2 * getDisplayTempo baseTempo quarter sig
     ∧ 3 * getDisplayTempo baseTempo dottedQuarter sig - 1 ≤ baseTempo
       ≤ 3 * getDisplayTempo baseTempo dottedQuarter sig + 1).
Proof.
  intros Hrange. split.
  - unfold getDisplayTempo, defaultNoteType. by destruct (decide _).
  - intros H8. unfold getDisplayTempo. destruct (decide _); [|done].
    destruct (Math_round_bounds (inject_Z baseTempo / 2)) as [Hq1 Hq2].
    destruct (Math_round_bounds (inject_Z baseTempo / 3)) as [Hd1 Hd2].
    set (q := Math_round (inject_Z baseTempo / 2)) in *.
    set (d := Math_round (inject_Z baseTempo / 3)) in *.
    unfold Qle, Qlt, Qmult, Qdiv, Qminus, Qplus, Qopp, Qinv in Hq1, Hq2, Hd1, Hd2.
    simpl in Hq1, Hq2, Hd1, Hd2. lia.
Qed.

Lemma displayed_tempo_witness :
  2 * getDisplayTempo 121 quarter sixEight - 1 ≤ 121
    ≤ 2 * getDisplayTempo 121 quarter sixEight.
Proof. apply (proj2 (displayed_tempo 121 sixEight ltac:(lia)) eq_refl). Defined.


(** ** Unmounting *)

(** X21.  Unmounting cancels the repeating timer and the tap reschedule,
    the two timers kept in refs.  Every other pending timeout survives
    it, among them a delayed first start, whose handle is stored
    nowhere. *)
Theorem unmount_clears_what_refs_name (evs : list Event) :
  let s := run evs initial in
  intervals (unmount s) = ∅
  ∧ (∀ h, tapTimeoutRef s = Some h → h ≠ 0 → timeouts (unmount s) !! h = None)
  ∧ (∀ h, tapTimeoutRef s ≠ Some h →
          timeouts (unmount s) !! h = timeouts s !! h).
Proof.
  cbv zeta.
  pose proof (owned_run evs initial owned_initial) as Hown.
  pose proof (separated_run evs initial owned_initial separated_initial) as Hsep.
  generalize dependent (run evs initial). intros s Hown Hsep.
  unfold unmount. cbv zeta.
  set (s1 := clearIfSet (timerRef s) s).
  assert (Hi1 : intervals s1 = ∅) by (by apply cancel_all).
  assert (Ht1 : timeouts s1 = timeouts s)
    by (by apply clearIfSet_timerRef_timeouts).
  assert (Hr1 : tapTimeoutRef s1 = tapTimeoutRef s)
    by apply clearIfSet_tapTimeoutRef.
  rewrite Hr1. split; [by apply clearIfSet_intervals_empty|]. split.
  - intros h Hh Hnz. unfold clearIfSet. rewrite Hh. simpl.
    replace (h =? 0) with false by (symmetry; by apply Z.eqb_neq).
    simpl. apply lookup_delete_eq.
  - intros h Hh. unfold clearIfSet.
    destruct (tapTimeoutRef s) as [k|]; [|by rewrite Ht1].
    destruct (truthy (Some k)); [|by rewrite Ht1].
    simpl. rewrite lookup_delete_ne by congruence. by rewrite Ht1.
Qed.

(** ** Tempos the controls can set *)

Lemma clearIfSet_tempo r s : tempo (clearIfSet r s) = tempo s.
Proof. unfold clearIfSet. destruct r; [destruct (truthy _)|]; done. Qed.

Lemma commit_tempo (before s : Metronome) : tempo (commit before s) = tempo s.
Proof.
  unfold commit.
  destruct (decide _); destruct (eqb _ _); try done;
    destruct (isPlaying _); try done; by rewrite clearIfSet_tempo.
Qed.

Lemma startMetronome_tempo (count : nat) (s : Metronome) :
  tempo (startMetronome count s) = tempo s.
Proof.
  unfold startMetronome. cbn -[clearIfSet]. apply clearIfSet_tempo.
Qed.

Lemma handleTapTempo_tempo (now : Q) (s : Metronome) :
  tempo (snd (handleTapTempo now s))
  = default (tempo s) (fst (handleTapTempo now s)).
Proof.
  unfold handleTapTempo.
  destruct (truthy (winLockoutRef s)) eqn:Hlock; [done|].
  cbn [tapTimesRef set_tapTimesRef].
  destruct (tapTempo _) as [bpm|]; [|done]. cbn [fst snd default].
  assert (H3 : tempo (if (550 <=? bpm) && negb (hasWon s)
    then
      let s3a := set_hasWon true
        (set_tempo bpm (set_tapTimesRef (tapWindow now (tapTimesRef s)) s)) in
      let s3b := clearIfSet (winLockoutRef s3a) s3a in
      let '(h, s3c) := setTimeout ExpireWinLockout s3b in
      set_winLockoutRef (Some h) s3c
    else set_tempo bpm (set_tapTimesRef (tapWindow now (tapTimesRef s)) s))
    = bpm).
  { destruct (_ && _); [|done]. cbv zeta.
    change (winLockoutRef (set_hasWon true _)) with (winLockoutRef s).
    by rewrite (clearIfSet_falsy _ _ Hlock). }
  cbv zeta in H3. set (s3 := if _ && _ then _ else _) in *.
  destruct (isPlaying s); [|exact H3].
  cbn -[clearIfSet]. by rewrite clearIfSet_tempo.
Qed.

Lemma handle_tempo (ev : Event) (s : Metronome) :
  slider_ok ev → 40 ≤ tempo s ≤ 800 → 40 ≤ tempo (handle ev s) ≤ 800.
Proof.
  intros Hok Hs. destruct ev as [|v| |e|now|i| |h|h|]; simpl handle; try done.
  - unfold startStop. destruct (isPlaying s).
    + cbn -[clearIfSet]. by rewrite clearIfSet_tempo.
    + cbn -[startMetronome]. destruct (isFirstClickRef s); [done|].
      by rewrite startMetronome_tempo.
  - simpl in Hok. simpl. lia.
  - unfold onTempoCommit. destruct (isPlaying s); [|done].
    by rewrite startMetronome_tempo.
  - unfold onSignatureChange. destruct (isPlaying s); [|done].
    cbn -[clearIfSet]. by rewrite clearIfSet_tempo.
  - rewrite handleTapTempo_tempo.
    destruct (fst (handleTapTempo now s)) as [bpm|] eqn:Hbpm; [|done].
    simpl. unfold handleTapTempo in Hbpm.
    destruct (truthy (winLockoutRef s)); [done|].
    cbn [tapTimesRef set_tapTimesRef] in Hbpm. unfold tapTempo in Hbpm.
    destruct (2 <=? _)%nat; [|done]. simpl in Hbpm. injection Hbpm as <-.
    apply clamp_bounds.
  - unfold runTimeout. destruct (timeouts s !! h) as [[count|]|]; [|done|done].
    by rewrite startMetronome_tempo.
  - unfold runInterval. by destruct (intervals s !! h).
Qed.

Lemma run_tempo (evs : list Event) (s : Metronome) :
  Forall slider_ok evs → 40 ≤ tempo s ≤ 800 → 40 ≤ tempo (run evs s) ≤ 800.
Proof.
  revert s. induction evs as [|ev evs IH]; intros s Hok Hs; [done|].
  apply Forall_cons in Hok as [Hev Hok]. simpl. apply IH; [done|].
  unfold step. rewrite commit_tempo. by apply handle_tempo.
Qed.

(** X22.  With the slider kept to its range, the tempo stays between 40
    and 800 whatever is tapped, and for such tempos both arming sites
    compute the same interval, [60000 / tempo], which is at least 75ms:
    the 10ms floor of [startMetronome] never takes effect, and the select
    handler's lack of one never shows. *)
Theorem floor_never_reached (evs : list Event) :
  Forall slider_ok evs →
  let s := run evs initial in
  40 ≤ tempo s ≤ 800 ∧ tempoRef s = tempo s
  ∧ (startIntervalMs (tempoRef s) == 60000 / inject_Z (tempo s))%Q
  ∧ (signatureIntervalMs (tempoRef s) == 60000 / inject_Z (tempo s))%Q
  ∧ (75 <= 60000 / inject_Z (tempo s))%Q.
Proof.
  cbv zeta. intros Hok.
  assert (Hrange : 40 ≤ tempo (run evs initial) ≤ 800)
    by (apply run_tempo; [done | simpl; lia]).
  pose proof (tempo_mirrored _ (mirrored_run evs)) as Hmir.
  generalize dependent (run evs initial). intros s Hrange Hmir.
  rewrite Hmir.
  assert (H75 : (75 <= 60000 / inject_Z (tempo s))%Q).
  { apply Qle_shift_div_l; [unfold Qlt; simpl; lia|].
    unfold Qle. simpl. lia. }
  split; [done|]. split; [done|]. split; [|split; [|done]].
  - rewrite startIntervalMs_floored by lia. apply Q.max_l.
    apply Qle_trans with 75%Q; [by vm_compute | done].
  - unfold signatureIntervalMs. apply per_minute. lia.
Qed.

Lemma floor_never_reached_witness :
  40 ≤ tempo (run [TempoChange 280; Tap 0; Tap 10] initial) ≤ 800.
Proof.
  assert (Hok : Forall slider_ok [TempoChange 280; Tap 0; Tap 10]).
  { repeat constructor; simpl; lia. }
  pose proof (floor_never_reached _ Hok) as H. cbv zeta in H.
  exact (proj1 H).
Defined.

(** ** The interval of every armed timer *)











